(** * EvolutionSimulator: a shallow embedding of [evolve.py]

    The program keeps a list of creatures, each a dictionary with the keys
    ['s'] (power), ['l'] (life status), ['id'] and ['a'] (age).  Every
    generation the survivors are counted, dead slots are respawned around the
    survivors' average power, and the environmental pressure kills some of
    the weak.

    Modelling choices.
    - Python integers are [Z]; list indices are [nat].
    - Python floats are read as the rationals they denote ([Q]): the program
      only adds, subtracts, multiplies, divides, compares and truncates them.
      Rounding is not modelled, so nothing below is a statement about the
      numeric value of a pressure, a sum or an average: the statements are
      about control flow, counts, ids, ages and slots.
    - The module [random] is an oracle: a stream [draws] of the values that
      successive calls of [R.triangular], [R.random] and [R.uniform] return,
      read through a cursor.  Every statement quantifies over all oracles.
    - [print] appends a structured event to the output.
    - Evaluating a dictionary display [{'s': .., 'l': .., 'id': .., 'a': ..}]
      creates a new object; the world keeps the list of the creatures so
      created, in creation order.  No two slots ever hold the same object, so
      the population is a list of records, updated by index.
    - A raised Python exception is the result [Raise]. *)

From Stdlib Require Import ZArith QArith Qround Lia String.
From stdpp Require Import base list.

Open Scope Z_scope.

(** ** Data *)

(** The value under key ['l']: the strings ['Alive'] and ['Dead']. *)
Inductive life : Type := Alive | Dead.

Definition life_eqb (x y : life) : bool :=
  match x, y with
  | Alive, Alive | Dead, Dead => true
  | _, _ => false
  end.

(** One creature: the dictionary [{'s': _, 'l': _, 'id': _, 'a': _}]. *)
Record creature : Type := Creature {
  c_s : Q;      (* 's' *)
  c_l : life;   (* 'l' *)
  c_id : Z;     (* 'id' *)
  c_a : Z       (* 'a' *)
}.

(** What the program prints, one constructor per [print] statement, with
    the values it formats.  [PStats] stands for the three lines of
    [print_stats]; the prompts of [input] are left out. *)
Inductive event : Type :=
| PGeneration (gen : Z)
| PExtinct
| PStats (gen n : Z) (fittest : Q) (fitid : Z) (old_env : Q)
         (oldest oldid oldgen : Z)
| PSurvived (count : Z)
| PCreature (i : Z) (s : Q)
| PExtremes (wid : Z) (weak : Q) (sid : Z) (strong : Q)
| POldest (oid old : Z)
| PChildren (born : Z) (mut : Q)
| PAverage (avg env : Q)
| PSucceeded
| PMessage (msg : string).

Inductive exn : Type :=
| IndexError
| ZeroDivisionError
| UnboundLocalError
| SystemExit (code : Z).

Inductive res (A : Type) : Type :=
| Ok (x : A)
| Raise (e : exn).
Arguments Ok {A} x.
Arguments Raise {A} e.

(** ** The world: random oracle, output, objects created *)

Record world : Type := World {
  draws : nat -> Q;     (* values returned by successive calls into [random] *)
  pos : nat;            (* how many have been consumed *)
  out : list event;     (* printed so far, oldest first *)
  born : list creature  (* creatures created so far, oldest first *)
}.

Definition M (A : Type) : Type := world -> res A * world.

Definition ret {A} (x : A) : M A := fun w => (Ok x, w).

Definition bind {A B} (m : M A) (k : A -> M B) : M B :=
  fun w => match m w with
           | (Ok x, w') => k x w'
           | (Raise e, w') => (Raise e, w')
           end.

Definition raise {A} (e : exn) : M A := fun w => (Raise e, w).

Declare Scope py_scope.
Delimit Scope py_scope with py.
Notation "x <- m ;; k" := (bind m (fun x => k))
  (at level 100, m at next level, right associativity) : py_scope.
Notation "m ;;; k" := (bind m (fun _ => k))
  (at level 100, right associativity) : py_scope.
Open Scope py_scope.

(** One call into the module [random]. *)
Definition draw : M Q :=
  fun w => (Ok (draws w (pos w)),
            {| draws := draws w; pos := S (pos w); out := out w;
               born := born w |}).

Definition print (e : event) : M unit :=
  fun w => (Ok tt, {| draws := draws w; pos := pos w; out := out w ++ [e];
                      born := born w |}).

(** A dictionary display: the new creature, as it is when created. *)
Definition create (v : creature) : M creature :=
  fun w => (Ok v, {| draws := draws w; pos := pos w; out := out w;
                     born := born w ++ [v] |}).

(** [p[i]]: an index past the end raises. *)
Definition getitem {A} (p : list A) (i : nat) : M A :=
  match p !! i with
  | Some x => ret x
  | None => raise IndexError
  end.

(** [a / b] on numbers. *)
Definition truediv (a b : Q) : M Q :=
  if Qeq_bool b 0 then raise ZeroDivisionError else ret (a / b)%Q.

(** [range(0, n)]. *)
Definition range (n : Z) : list nat := seq 0 (Z.to_nat n).

(** [int(f)] on a float: truncation toward zero. *)
Definition int (f : Q) : Z := Z.quot (Qnum f) (Zpos (Qden f)).

Definition Qltb (x y : Q) : bool := negb (Qle_bool y x).

(** ** initialize *)

Fixpoint initialize_loop (idx : list nat) (p : list creature) (n : Z)
  : M (list creature * Z) :=
  match idx with
  | [] => ret (p, n)
  | _ :: idx' =>
      t <- draw ;;                                   (* R.triangular(0, 5) *)
      v <- create {| c_s := t; c_l := Alive; c_id := n; c_a := 0 |} ;;
      initialize_loop idx' (p ++ [v]) (n + 1)
  end.

Definition initialize (pop : Z) : M (list creature * Z) :=
  initialize_loop (range pop) [] 0.

(** ** parent_power *)

Fixpoint parent_power_loop (idx : list nat) (p : list creature)
    (sum : Q) (count : Z) : M (Q * Z) :=
  match idx with
  | [] => ret (sum, count)
  | i :: idx' =>
      x <- getitem p i ;;
      if life_eqb (c_l x) Alive
      then parent_power_loop idx' p (sum + c_s x)%Q (count + 1)
      else parent_power_loop idx' p sum count
  end.

Definition parent_power (p : list creature) (pop : Z) : M (Q * Z) :=
  r <- parent_power_loop (range pop) p 0%Q 0 ;;
  let '(sum, count) := r in
  if count =? 0 then ret (0%Q, 0)
  else avg <- truediv sum (inject_Z count) ;; ret (avg, count).

(** ** kill *)

(** The trials of [kill]: [true] is [return True] inside the loop, [false]
    the [return False] after it. *)
Fixpoint kill_loop (trials : nat) : M bool :=
  match trials with
  | O => ret false
  | S trials' =>
      r <- draw ;;                                   (* R.random() *)
      if Qltb (6 # 10) r then ret true else kill_loop trials'
  end.

(** [None] is Python's [None], returned by falling off the end. *)
Definition kill (f : Q) : M (option bool) :=
  if Qltb 0 f
  then b <- kill_loop (Z.to_nat (int f ^ 2)) ;; ret (Some b)
  else ret None.

(** Truthiness of what [kill] returns, as tested by [if kill(fitness):]. *)
Definition truthy (r : option bool) : bool :=
  match r with
  | Some true => true
  | _ => false
  end.

(** ** pressure *)

Definition pressure_for (gen : Z) : Q :=
  (inject_Z (gen + 5) * ((8 # 10) + inject_Z gen / 200))%Q.

Definition set_dead (x : creature) : creature :=
  {| c_s := c_s x; c_l := Dead; c_id := c_id x; c_a := c_a x |}.

Fixpoint pressure_loop (idx : list nat) (env : Q) (p : list creature)
  : M (list creature) :=
  match idx with
  | [] => ret p
  | i :: idx' =>
      x <- getitem p i ;;
      let fitness := (env - c_s x)%Q in
      k <- kill fitness ;;
      if truthy k
      then pressure_loop idx' env (<[i := set_dead x]> p)
      else pressure_loop idx' env p
  end.

Definition pressure (p : list creature) (gen pop : Z) : M (list creature * Q) :=
  let env := pressure_for gen in
  p' <- pressure_loop (range pop) env p ;;
  ret (p', env).

(** ** print_living *)

(** The six local variables of [print_living]. *)
Record extremes : Type := Extremes {
  weak : Q; wid : Z;
  strong : Q; sid : Z;
  old : Z; oid : Z
}.

Definition extremes0 : extremes :=
  {| weak := 0; wid := 0; strong := 0; sid := 0; old := 1; oid := 0 |}.

(** The three comparisons made for one living creature [i]. *)
Definition extremes_step (e : extremes) (i : creature) : extremes :=
  let e1 :=
    if Qltb (c_s i) (weak e) || Qeq_bool (weak e) 0
    then {| weak := c_s i; wid := c_id i; strong := strong e; sid := sid e;
            old := old e; oid := oid e |}
    else e in
  let e2 :=
    if Qltb (strong e1) (c_s i)
    then {| weak := weak e1; wid := wid e1; strong := c_s i; sid := c_id i;
            old := old e1; oid := oid e1 |}
    else e1 in
  if old e2 <? c_a i
  then {| weak := weak e2; wid := wid e2; strong := strong e2; sid := sid e2;
          old := c_a i; oid := c_id i |}
  else e2.

Fixpoint print_living_loop (p : list creature) (pop : Z) (e : extremes)
  : M extremes :=
  match p with
  | [] => ret e
  | i :: p' =>
      if life_eqb (c_l i) Alive
      then (if pop <=? 20 then print (PCreature (c_id i) (c_s i)) else ret tt) ;;;
           print_living_loop p' pop (extremes_step e i)
      else print_living_loop p' pop e
  end.

Definition print_living (p : list creature) (pop : Z) : M (Q * Z * Z * Z) :=
  e <- print_living_loop p pop extremes0 ;;
  (if pop >? 20
   then print (PExtremes (wid e) (weak e) (sid e) (strong e)) ;;;
        (if old e >? 1 then print (POldest (oid e) (old e)) else ret tt)
   else ret tt) ;;;
  ret (strong e, sid e, old e, oid e).

(** ** print_stats *)

Definition print_stats (gen n : Z) (fittest : Q) (fitid : Z) (old_env : Q)
    (oldest oldid oldgen : Z) : M unit :=
  print (PStats gen n fittest fitid old_env oldest oldid oldgen).

(** ** simulate *)

Definition older (x : creature) : creature :=
  {| c_s := c_s x; c_l := c_l x; c_id := c_id x; c_a := c_a x + 1 |}.

(** The respawn loop of [simulate], [for i in range(0, pop)] with its
    [break]. *)
Fixpoint respawn_loop (idx : list nat) (avg mut : Q)
    (p : list creature) (n new : Z) : M (list creature * Z * Z) :=
  match idx with
  | [] => ret (p, n, new)
  | i :: idx' =>
      if new =? 0 then ret (p, n, new)                         (* break *)
      else
        x <- getitem p i ;;
        if life_eqb (c_l x) Dead
        then
          u <- draw ;;                             (* R.uniform(-1 * mut, mut) *)
          v <- create {| c_s := avg + u; c_l := Alive; c_id := n; c_a := 0 |} ;;
          respawn_loop idx' avg mut (<[i := v]> p) (n + 1) (new - 1)
        else
          respawn_loop idx' avg mut (<[i := older x]> p) n new     (* 'a' += 1 *)
  end.

(** The local variables of [simulate] that live across iterations. *)
Record locals : Type := Locals {
  v_p : list creature;
  v_n : Z;
  v_fittest : Q;
  v_fitid : Z;
  v_old_env : Q;
  v_oldest : Z;
  v_oldid : Z;
  v_oldgen : Z
}.

(** How one iteration of the loop in [simulate] ends. *)
Inductive flow : Type :=
| Next (st : locals)     (* falls through to the next iteration *)
| Return.                (* [return] after "Population went extinct." *)

(** The body of [for gen in range(0, generations)]. *)
Definition generation (pop gen : Z) (st : locals) : M flow :=
  print (PGeneration gen) ;;;
  r <- parent_power (v_p st) pop ;;
  let '(avg, count) := r in
  if Qeq_bool avg 0 || (count =? 1)
  then
    print PExtinct ;;;
    print_stats gen (v_n st) (v_fittest st) (v_fitid st) (v_old_env st)
                (v_oldest st) (v_oldid st) (v_oldgen st) ;;;
    ret Return
  else
    print (PSurvived count) ;;;
    e <- print_living (v_p st) pop ;;
    let '(strong, sid, old, oid) := e in
    q <- truediv 6 (inject_Z count) ;;
    let mut := (inject_Z gen / 100 + 3 + q ^ 2)%Q in
    let new := count * 2 in
    r <- respawn_loop (range pop) avg mut (v_p st) (v_n st) new ;;
    let '(p, n, new) := r in
    print (PChildren (count * 2 - new) mut) ;;;
    r <- pressure p gen pop ;;
    let '(p, env) := r in
    print (PAverage avg env) ;;;
    let fit := Qltb (v_fittest st) (strong - env) in
    let aged := v_oldest st <? old in
    ret (Next {| v_p := p; v_n := n;
                 v_fittest := if fit then (strong - env)%Q else v_fittest st;
                 v_fitid := if fit then sid else v_fitid st;
                 v_old_env := if fit then env else v_old_env st;
                 v_oldest := if aged then old else v_oldest st;
                 v_oldid := if aged then oid else v_oldid st;
                 v_oldgen := if aged then gen else v_oldgen st |}).

Fixpoint simulate_loop (pop : Z) (gens : list nat) (st : locals) : M flow :=
  match gens with
  | [] => ret (Next st)
  | gen :: gens' =>
      f <- generation pop (Z.of_nat gen) st ;;
      match f with
      | Next st' => simulate_loop pop gens' st'
      | Return => ret Return
      end
  end.

Definition locals0 (p : list creature) (n : Z) : locals :=
  {| v_p := p; v_n := n; v_fittest := 0; v_fitid := 0; v_old_env := 0;
     v_oldest := 0; v_oldid := 0; v_oldgen := 0 |}.

(** [simulate] up to the end of its loop, run over the generations [gens]. *)
Definition simulate_run (pop : Z) (gens : list nat) : M flow :=
  r <- initialize pop ;;
  let '(p, n) := r in
  simulate_loop pop gens (locals0 p n).

Definition simulate (pop generations : Z) : M unit :=
  f <- simulate_run pop (range generations) ;;
  match f with
  | Return => ret tt
  | Next st =>
      print PSucceeded ;;;
      (* [gen] is the last value of the loop variable; with an empty range
         it was never bound *)
      if generations <=? 0 then raise UnboundLocalError
      else print_stats (generations - 1) (v_n st) (v_fittest st) (v_fitid st)
                       (v_old_env st) (v_oldest st) (v_oldid st) (v_oldgen st)
  end.

(** ** Script main *)

(** [maxpop] and [maxgen] are what [int(input(...))] gave for the two lines
    typed: [None] when it raised [ValueError]. *)
Definition main (maxpop maxgen : option Z) : M unit :=
  match maxpop, maxgen with
  | Some maxpop, Some maxgen =>
      (if maxpop <? 10
       then print (PMessage "Please choose a population size between 9 and 100000.") ;;;
            raise (SystemExit 1)
       else ret tt) ;;;
      (if maxgen <? 51
       then print (PMessage "Please choose a simulation time greater than 50 (up to roughly 275).") ;;;
            raise (SystemExit 1)
       else ret tt) ;;;
      simulate maxpop maxgen
  | _, _ =>
      print (PMessage "Please insert an integer.") ;;;
      raise (SystemExit 1)
  end.

(** The world before the program starts, with the oracle [d]. *)
Definition start (d : nat -> Q) : world :=
  {| draws := d; pos := 0; out := []; born := [] |}.

(** An oracle that returns the values of [l] and then [0]. *)
Definition oracle (l : list Q) : nat -> Q := fun k => nth k l 0%Q.

(** * Vocabulary of the properties *)

(** The number of living creatures of a population, and of dead ones. *)
Fixpoint living (p : list creature) : Z :=
  match p with
  | [] => 0
  | x :: p' => (if life_eqb (c_l x) Alive then 1 else 0) + living p'
  end.

Fixpoint dead (p : list creature) : Z :=
  match p with
  | [] => 0
  | x :: p' => (if life_eqb (c_l x) Dead then 1 else 0) + dead p'
  end.

(** Sum and count of the living, accumulated as the loop does. *)
Fixpoint tally (p : list creature) (sum : Q) (count : Z) : Q * Z :=
  match p with
  | [] => (sum, count)
  | x :: p' =>
      if life_eqb (c_l x) Alive
      then tally p' (sum + c_s x)%Q (count + 1)
      else tally p' sum count
  end.

(** The average of the living, as [parent_power] returns it. *)
Definition average (p : list creature) : Q :=
  if living p =? 0 then 0%Q
  else (fst (tally p 0 0) / inject_Z (living p))%Q.

(** The loop of [pressure] told slot by slot: every slot visited, living or
    dead, is put to the death test. *)
Fixpoint cull (env : Q) (p : list creature) : M (list creature) :=
  match p with
  | [] => ret []
  | x :: p' =>
      k <- kill (env - c_s x) ;;
      r <- cull env p' ;;
      ret ((if truthy k then set_dead x else x) :: r)
  end.

(** What the death test may do to one slot. *)
Definition culled (x x' : creature) : Prop := x' = x \/ x' = set_dead x.

(** The respawn loop told slot by slot. *)
Fixpoint respawn_list (avg : Q) (p : list creature) (n new : Z)
  : M (list creature * Z * Z) :=
  match p with
  | [] => ret ([], n, new)
  | x :: p' =>
      if new =? 0 then ret (x :: p', n, new)
      else if life_eqb (c_l x) Dead
      then
        u <- draw ;;
        v <- create {| c_s := avg + u; c_l := Alive; c_id := n; c_a := 0 |} ;;
        r <- respawn_list avg p' (n + 1) (new - 1) ;;
        let '(q, n', new') := r in ret (v :: q, n', new')
      else
        r <- respawn_list avg p' n new ;;
        let '(q, n', new') := r in ret (older x :: q, n', new')
  end.

(** The ids [n], [n+1], ..., [k] of them. *)
Fixpoint ids_from (n : Z) (k : nat) : list Z :=
  match k with
  | O => []
  | S k' => n :: ids_from (n + 1) k'
  end.


(** The creature [x] of a population was created with the id and the power
    it carries. *)
Definition known (log : list creature) (x : creature) : Prop :=
  exists b, b ∈ log /\ c_id b = c_id x /\ c_s b = c_s x.

(** The extremes after the loop of [print_living], started from [e]. *)
Fixpoint scan (p : list creature) (e : extremes) : extremes :=
  match p with
  | [] => e
  | i :: p' =>
      if life_eqb (c_l i) Alive then scan p' (extremes_step e i) else scan p' e
  end.

(** What [print_living] may print. *)
Definition census_event (ev : event) : Prop :=
  match ev with
  | PCreature _ _ | PExtremes _ _ _ _ | POldest _ _ => True
  | _ => False
  end.

(** [s] is the greatest power among the living of [p], held by the living
    creature with id [i]. *)
Definition strongest (p : list creature) (s : Q) (i : Z) : Prop :=
  (forall y, y ∈ p -> c_l y = Alive -> (c_s y <= s)%Q) /\
  exists x, x ∈ p /\ c_l x = Alive /\ c_s x = s /\ c_id x = i.

Definition weakest (p : list creature) (s : Q) (i : Z) : Prop :=
  (forall y, y ∈ p -> c_l y = Alive -> (s <= c_s y)%Q) /\
  exists x, x ∈ p /\ c_l x = Alive /\ c_s x = s /\ c_id x = i.

(** [a] is the greatest age among the living of [p], held by the living
    creature with id [i]. *)
Definition eldest (p : list creature) (a : Z) (i : Z) : Prop :=
  (forall y, y ∈ p -> c_l y = Alive -> c_a y <= a) /\
  exists x, x ∈ p /\ c_l x = Alive /\ c_a x = a /\ c_id x = i.

(** No two creatures of the population share an id, and every id is below
    the next id to give. *)
Definition ids_ok (p : list creature) (n : Z) : Prop :=
  NoDup (map c_id p) /\ Forall (fun x => c_id x < n) p.

(** What the output shows of the mutation spread: the count printed before
    it is computed, and the spread printed after, come from a count of at
    least 2. *)
Definition guarded (ev : event) : Prop :=
  match ev with
  | PSurvived count => 2 <= count
  | PChildren _ mut =>
      exists gen count : Z,
        2 <= count /\
        mut = (inject_Z gen / 100 + 3 + (6 / inject_Z count) ^ 2)%Q
  | _ => True
  end.

(** The test that ends the run at the top of an iteration. *)
Definition extinct (p : list creature) : bool :=
  Qeq_bool (average p) 0 || (living p =? 1).

(** The lines [print_living] prints for a population of at most 20: one per
    living creature, in slot order. *)
Fixpoint roster (p : list creature) : list event :=
  match p with
  | [] => []
  | x :: p' =>
      if life_eqb (c_l x) Alive
      then PCreature (c_id x) (c_s x) :: roster p'
      else roster p'
  end.

(** The generation numbers announced in an output, in order. *)
Fixpoint generations_of (evs : list event) : list Z :=
  match evs with
  | [] => []
  | PGeneration gen :: evs' => gen :: generations_of evs'
  | _ :: evs' => generations_of evs'
  end.

(** What one iteration prints when the run goes on: no report of the end of
    the run and no validation message. *)
Definition body_event (ev : event) : Prop :=
  match ev with
  | PExtinct | PStats _ _ _ _ _ _ _ _ | PSucceeded | PMessage _ => False
  | _ => True
  end.

(** The mutation spread of generation [gen] with [count] survivors. *)
Definition mutation_spread (gen count : Z) : Q :=
  (inject_Z gen / 100 + 3 + (6 / inject_Z count) ^ 2)%Q.

(** * Properties *)

(** ** Numbers *)

Lemma Qltb_lt (x y : Q) : Qltb x y = true <-> (x < y)%Q.
Proof.
  unfold Qltb. rewrite negb_true_iff, <- not_true_iff_false, Qle_bool_iff.
  split; [apply Qnot_le_lt | apply Qlt_not_le].
Qed.

Lemma Qltb_ge (x y : Q) : Qltb x y = false <-> (y <= x)%Q.
Proof.
  unfold Qltb. rewrite negb_false_iff. apply Qle_bool_iff.
Qed.

(** On a positive number [int] is the floor. *)
Lemma int_floor (f : Q) : (0 < f)%Q -> int f = Qfloor f.
Proof.
  destruct f as [a b]. unfold Qlt, int, Qfloor. simpl. intros H.
  apply Z.quot_div_nonneg; lia.
Qed.

Lemma int_small (f : Q) : (0 < f)%Q -> (f < 1)%Q -> int f = 0.
Proof.
  destruct f as [a b]. unfold Qlt, int. simpl. intros H0 H1.
  apply Z.quot_small. lia.
Qed.

(** ** kill *)

Lemma kill_loop_spec (trials : nat) (w : world) :
  exists b w',
    kill_loop trials w = (Ok b, w') /\
    (b = true <->
     exists k, (k < trials)%nat /\ (6 # 10 < draws w (pos w + k))%Q) /\
    draws w' = draws w /\ out w' = out w /\ born w' = born w /\
    (pos w <= pos w' <= pos w + trials)%nat.
Proof.
  revert w. induction trials as [|t IH]; intros w.
  - exists false, w. repeat split; try lia; try discriminate.
    intros (k & Hk & _). lia.
  - cbn [kill_loop]. unfold bind, draw.
    destruct (Qltb (6 # 10) (draws w (pos w))) eqn:E.
    + eexists true, _. split; [reflexivity|]. cbn.
      repeat split; try lia. intros _. exists 0%nat.
      rewrite Nat.add_0_r. apply Qltb_lt in E. split; [lia | exact E].
    + destruct (IH {| draws := draws w; pos := S (pos w); out := out w;
                      born := born w |})
        as (b & w' & Hrun & Hb & Hd & Ho & Hn & Hp).
      cbn in *. exists b, w'. split; [exact Hrun|].
      repeat split; try assumption; try lia.
      * intros Hbt. apply Hb in Hbt as (k & Hk & Hlt).
        exists (S k). split; [lia|]. now rewrite Nat.add_succ_r.
      * intros (k & Hk & Hlt). apply Hb. destruct k as [|k].
        -- rewrite Nat.add_0_r in Hlt. apply Qltb_lt in Hlt. congruence.
        -- exists k. split; [lia|]. now rewrite Nat.add_succ_r in Hlt.
Qed.

(** What [kill] does to the world: it only reads the oracle. *)
Lemma kill_frame (f : Q) (w : world) :
  exists r w',
    kill f w = (Ok r, w') /\
    draws w' = draws w /\ out w' = out w /\ born w' = born w /\
    (pos w <= pos w')%nat.
Proof.
  unfold kill. destruct (Qltb 0 f).
  - destruct (kill_loop_spec (Z.to_nat (int f ^ 2)) w)
      as (b & w' & Hrun & _ & Hd & Ho & Hn & Hp).
    exists (Some b), w'. unfold bind. rewrite Hrun.
    repeat split; try assumption; lia.
  - exists None, w. repeat split; lia.
Qed.

(** C2.  [kill f] returns [None] (falsy) when [f <= 0]; returns [False]
    without drawing when [0 < f < 1]; and when [f > 0] returns [True]
    exactly when one of the next [floor(f)^2] draws exceeds 0.6, [False]
    exactly when all of them are at most 0.6. *)
Theorem kill_spec (f : Q) (w : world) :
  ((f <= 0)%Q -> kill f w = (Ok None, w) /\ truthy None = false) /\
  ((0 < f)%Q -> (f < 1)%Q -> kill f w = (Ok (Some false), w)) /\
  ((0 < f)%Q ->
   exists b w',
     kill f w = (Ok (Some b), w') /\
     (b = true <->
      exists k, (k < Z.to_nat (Qfloor f ^ 2))%nat /\
                (6 # 10 < draws w (pos w + k))%Q) /\
     (b = false <->
      forall k, (k < Z.to_nat (Qfloor f ^ 2))%nat ->
                (draws w (pos w + k) <= 6 # 10)%Q)).
Proof.
  split; [|split].
  - intros Hf. apply Qltb_ge in Hf. unfold kill. now rewrite Hf.
  - intros H0 H1. unfold kill.
    apply Qltb_lt in H0 as Hb. rewrite Hb.
    now rewrite (int_small f H0 H1).
  - intros H0. unfold kill. apply Qltb_lt in H0 as Hb. rewrite Hb.
    rewrite (int_floor f H0).
    destruct (kill_loop_spec (Z.to_nat (Qfloor f ^ 2)) w)
      as (b & w' & Hrun & Hiff & _).
    exists b, w'. unfold bind. rewrite Hrun. split; [reflexivity|].
    split; [exact Hiff|].
    split.
    + intros Hbf k Hk. apply Qnot_lt_le. intros Hlt.
      assert (b = true) by (apply Hiff; eauto). congruence.
    + intros Hall. destruct b; [|reflexivity].
      destruct (proj1 Hiff eq_refl) as (k & Hk & Hlt).
      apply Hall in Hk. exfalso. exact (Qlt_not_le _ _ Hlt Hk).
Qed.

Lemma kill_spec_witness :
  kill (-1) (start (oracle [9 # 10])) = (Ok None, start (oracle [9 # 10])) /\
  kill (1 # 2) (start (oracle [9 # 10]))
  = (Ok (Some false), start (oracle [9 # 10])) /\
  exists b w',
    kill (5 # 2) (start (oracle [1 # 10; 9 # 10])) = (Ok (Some b), w') /\
    (b = true <->
     exists k, (k < Z.to_nat (Qfloor (5 # 2) ^ 2))%nat /\
               (6 # 10 < draws (start (oracle [1 # 10; 9 # 10]))
                               (pos (start (oracle [1 # 10; 9 # 10])) + k))%Q).
Proof.
  split; [|split].
  - apply (proj1 (kill_spec (-1) (start (oracle [9 # 10])))).
    unfold Qle; simpl; lia.
  - apply (proj1 (proj2 (kill_spec (1 # 2) (start (oracle [9 # 10]))))).
    + reflexivity.
    + reflexivity.
  - destruct (proj2 (proj2 (kill_spec (5 # 2)
                              (start (oracle [1 # 10; 9 # 10])))))
      as (b & w' & Hk & Ht & _).
    + reflexivity.
    + exists b, w'. split; [exact Hk | exact Ht].
Defined.

(** ** Index loops over a list

    The loops [for i in range(0, pop)] visit the slots [p[0]], [p[1]], ...
    in turn.  Their properties are proved on the part [mid] of
    [pre ++ mid ++ post] that is still to be visited. *)

Lemma seq_cons (a n : nat) : seq a (S n) = a :: seq (S a) n.
Proof. reflexivity. Qed.

Lemma lookup_mid {A} (pre post : list A) (x : A) :
  (pre ++ x :: post) !! length pre = Some x.
Proof. now apply list_lookup_middle. Qed.

Lemma insert_mid {A} (pre post : list A) (x y : A) :
  <[length pre := y]> (pre ++ x :: post) = pre ++ y :: post.
Proof.
  induction pre as [|a pre IH]; simpl; [reflexivity|]. now rewrite IH.
Qed.

Lemma shift_mid {A} (pre mid : list A) (x : A) :
  pre ++ x :: mid = (pre ++ [x]) ++ mid.
Proof. now rewrite <- app_assoc. Qed.

Lemma length_snoc {A} (pre : list A) (x : A) :
  length (pre ++ [x]) = S (length pre).
Proof. rewrite length_app. simpl. lia. Qed.

(** ** Counting the living and the dead *)

Lemma living_nonneg (p : list creature) : 0 <= living p.
Proof. induction p as [|x p IH]; simpl; [lia|]. destruct (life_eqb _ _); lia. Qed.

Lemma dead_nonneg (p : list creature) : 0 <= dead p.
Proof. induction p as [|x p IH]; simpl; [lia|]. destruct (life_eqb _ _); lia. Qed.

Lemma living_dead_length (p : list creature) :
  living p + dead p = Z.of_nat (length p).
Proof.
  induction p as [|x p IH]; simpl length; simpl living; simpl dead; [lia|].
  destruct (c_l x); simpl; lia.
Qed.

(** ** parent_power *)

Lemma tally_count (p : list creature) (sum : Q) (count : Z) :
  snd (tally p sum count) = count + living p.
Proof.
  revert sum count. induction p as [|x p IH]; intros sum count; simpl; [lia|].
  destruct (life_eqb _ _); rewrite IH; lia.
Qed.

Lemma parent_power_loop_tally (pre mid post : list creature)
    (sum : Q) (count : Z) (w : world) :
  parent_power_loop (seq (length pre) (length mid)) (pre ++ mid ++ post)
                    sum count w
  = (Ok (tally mid sum count), w).
Proof.
  revert pre sum count. induction mid as [|x mid IH]; intros pre sum count.
  - reflexivity.
  - simpl length. rewrite seq_cons. cbn [parent_power_loop tally].
    unfold bind, getitem. rewrite <- app_comm_cons, lookup_mid. unfold ret.
    rewrite shift_mid, <- (length_snoc pre x).
    destruct (life_eqb (c_l x) Alive); apply IH.
Qed.

Lemma inject_Z_nonzero (z : Z) : z <> 0 -> Qeq_bool (inject_Z z) 0 = false.
Proof.
  intros Hz. apply not_true_iff_false. intros H. apply Qeq_bool_iff in H.
  unfold Qeq in H. simpl in H. lia.
Qed.

Lemma parent_power_spec (p : list creature) (pop : Z) (w : world) :
  length p = Z.to_nat pop ->
  parent_power p pop w = (Ok (average p, living p), w).
Proof.
  intros Hlen. unfold parent_power, range, bind.
  rewrite <- Hlen.
  pose proof (parent_power_loop_tally [] p [] 0%Q 0 w) as H.
  simpl in H. rewrite app_nil_r in H. rewrite H.
  pose proof (tally_count p 0%Q 0) as Hc.
  destruct (tally p 0%Q 0) as [sum count] eqn:E. simpl in Hc. subst count.
  unfold average. rewrite E. simpl.
  replace (0 + living p) with (living p) by lia.
  destruct (living p =? 0) eqn:E0.
  - apply Z.eqb_eq in E0. rewrite E0. reflexivity.
  - apply Z.eqb_neq in E0. unfold truediv.
    rewrite (inject_Z_nonzero _ E0). reflexivity.
Qed.

(** ** pressure *)

Lemma pressure_loop_cull (env : Q) (pre mid post : list creature) (w : world) :
  pressure_loop (seq (length pre) (length mid)) env (pre ++ mid ++ post) w
  = (r <- cull env mid ;; ret (pre ++ r ++ post)) w.
Proof.
  revert pre w. induction mid as [|x mid IH]; intros pre w.
  - reflexivity.
  - simpl length. rewrite seq_cons, <- app_comm_cons.
    cbn [pressure_loop cull]. unfold bind at 1 2 3 4, getitem.
    rewrite lookup_mid. unfold ret at 1.
    destruct (kill (env - c_s x) w) as [[k|e] w1]; [|reflexivity].
    destruct (truthy k).
    + rewrite insert_mid, shift_mid, <- (length_snoc pre (set_dead x)), IH.
      unfold bind, ret. destruct (cull env mid w1) as [[r|e] w2]; [|reflexivity].
      now rewrite <- app_assoc.
    + rewrite shift_mid, <- (length_snoc pre x), IH.
      unfold bind, ret. destruct (cull env mid w1) as [[r|e] w2]; [|reflexivity].
      now rewrite <- app_assoc.
Qed.

Lemma cull_spec (env : Q) (p : list creature) (w : world) :
  exists p' w',
    cull env p w = (Ok p', w') /\ Forall2 culled p p' /\
    draws w' = draws w /\ out w' = out w /\ born w' = born w /\
    (pos w <= pos w')%nat.
Proof.
  revert w. induction p as [|x p IH]; intros w.
  - exists [], w. repeat split; [constructor | lia].
  - cbn [cull]. unfold bind.
    destruct (kill_frame (env - c_s x) w) as (k & w1 & Hk & Hd1 & Ho1 & Hb1 & Hp1).
    rewrite Hk.
    destruct (IH w1) as (p' & w2 & Hc & Hf & Hd2 & Ho2 & Hb2 & Hp2).
    rewrite Hc. eexists _, w2. split; [reflexivity|].
    repeat split; try congruence; try lia.
    constructor; [|exact Hf].
    destruct (truthy k); [now right | now left].
Qed.

Lemma culled_fields (x x' : creature) :
  culled x x' ->
  c_s x' = c_s x /\ c_id x' = c_id x /\ c_a x' = c_a x /\
  (c_l x' = c_l x \/ c_l x = Alive /\ c_l x' = Dead).
Proof.
  intros [->| ->]; simpl; repeat split; auto.
  destruct (c_l x); auto.
Qed.

Lemma pressure_spec (p : list creature) (gen pop : Z) (w : world) :
  (Z.to_nat pop <= length p)%nat ->
  exists p' w',
    pressure p gen pop w = (Ok (p', pressure_for gen), w') /\
    Forall2 culled p p' /\
    draws w' = draws w /\ out w' = out w /\ born w' = born w /\
    (pos w <= pos w')%nat.
Proof.
  intros Hlen. unfold pressure, range.
  pose proof (pressure_loop_cull (pressure_for gen) []
                (take (Z.to_nat pop) p) (drop (Z.to_nat pop) p) w) as H.
  rewrite length_take_le in H by exact Hlen.
  simpl in H. rewrite take_drop in H.
  unfold bind at 1. rewrite H. unfold bind.
  destruct (cull_spec (pressure_for gen) (take (Z.to_nat pop) p) w)
    as (r & w' & Hc & Hf & Hd & Ho & Hb & Hp).
  rewrite Hc. eexists _, w'. split; [reflexivity|].
  repeat split; try assumption.
  rewrite <- (take_drop (Z.to_nat pop) p) at 1.
  apply Forall2_app; [exact Hf|].
  apply Forall_Forall2_diag, Forall_forall. intros x _. now left.
Qed.

(** C10.  [pressure] returns the population with every slot's power, id and
    age as they were; a status is either unchanged or goes from Alive to
    Dead, so a Dead slot stays Dead.  It prints nothing and creates
    nothing. *)
Theorem pressure_frame (p : list creature) (gen pop : Z) (w : world) :
  (Z.to_nat pop <= length p)%nat ->
  exists p' w',
    pressure p gen pop w = (Ok (p', pressure_for gen), w') /\
    length p' = length p /\
    out w' = out w /\ born w' = born w /\
    forall (i : nat) (x : creature),
      p !! i = Some x ->
      exists x',
        p' !! i = Some x' /\
        c_s x' = c_s x /\ c_id x' = c_id x /\ c_a x' = c_a x /\
        (c_l x' = c_l x \/ c_l x = Alive /\ c_l x' = Dead) /\
        (c_l x = Dead -> c_l x' = Dead).
Proof.
  intros Hlen.
  destruct (pressure_spec p gen pop w Hlen)
    as (p' & w' & Hrun & Hf & _ & Ho & Hb & _).
  exists p', w'. split; [exact Hrun|].
  split; [symmetry; exact (Forall2_length _ _ _ Hf)|].
  split; [exact Ho|]. split; [exact Hb|].
  intros i x Hi.
  destruct (Forall2_lookup_l _ _ _ _ _ Hf Hi) as (x' & Hi' & Hc).
  exists x'. split; [exact Hi'|].
  destruct (culled_fields _ _ Hc) as (Hs & Hid & Ha & Hl).
  repeat split; try assumption.
  intros Hd. destruct Hl as [Hl | [Hl _]]; congruence.
Qed.

Lemma pressure_frame_witness :
  exists p' w',
    pressure [Creature 0 Alive 0 0; Creature 0 Dead 1 0] 0 2
             (start (oracle [9 # 10; 9 # 10]))
    = (Ok (p', pressure_for 0), w') /\
    length p' = 2%nat.
Proof.
  destruct (pressure_frame [Creature 0 Alive 0 0; Creature 0 Dead 1 0] 0 2
              (start (oracle [9 # 10; 9 # 10])))
    as (p' & w' & Hrun & Hlen & _).
  - simpl. lia.
  - exists p', w'. split; [exact Hrun | exact Hlen].
Defined.

(** A dead slot is put to the death test like any other: here both slots
    take one draw each, and the dead one stays dead. *)
Example pressure_tests_the_dead :
  let w := start (oracle [9 # 10; 9 # 10]) in
  let r := pressure [Creature 0 Alive 0 0; Creature 0 Dead 1 0] 0 2 w in
  fst r = Ok ([Creature 0 Dead 0 0; Creature 0 Dead 1 0], pressure_for 0) /\
  pos (snd r) = 2%nat.
Proof. split; reflexivity. Qed.

(** ** The respawn loop *)

Lemma respawn_loop_list (avg mut : Q) (pre mid post : list creature)
    (n new : Z) (w : world) :
  respawn_loop (seq (length pre) (length mid)) avg mut (pre ++ mid ++ post)
               n new w
  = (r <- respawn_list avg mid n new ;;
     let '(q, n', new') := r in ret (pre ++ q ++ post, n', new')) w.
Proof.
  revert pre n new w. induction mid as [|x mid IH]; intros pre n new w.
  - reflexivity.
  - simpl length. rewrite seq_cons, <- app_comm_cons.
    cbn [respawn_loop respawn_list].
    destruct (new =? 0); [reflexivity|].
    unfold bind at 1, getitem. rewrite lookup_mid. unfold ret at 1.
    destruct (life_eqb (c_l x) Dead).
    + unfold bind at 1 2 3 4 5, draw, create.
      rewrite insert_mid, shift_mid.
      match goal with
      | |- context [pre ++ [?v]] => rewrite <- (length_snoc pre v)
      end.
      rewrite IH. unfold bind, ret.
      match goal with
      | |- context [respawn_list avg mid ?a ?b ?c] =>
          destruct (respawn_list avg mid a b c) as [[[[q n'] new']|e] w2]
      end; [|reflexivity].
      now rewrite <- app_assoc.
    + rewrite insert_mid, shift_mid, <- (length_snoc pre (older x)), IH.
      unfold bind, ret.
      destruct (respawn_list avg mid n new w) as [[[[q n'] new']|e] w2];
        [|reflexivity].
      now rewrite <- app_assoc.
Qed.

Lemma ids_from_length (n : Z) (k : nat) : length (ids_from n k) = k.
Proof. revert n. induction k as [|k IH]; intros n; simpl; [|rewrite IH]; reflexivity. Qed.

Lemma ids_from_app (n : Z) (a b : nat) :
  ids_from n (a + b) = ids_from n a ++ ids_from (n + Z.of_nat a) b.
Proof.
  revert n. induction a as [|a IH]; intros n; simpl.
  - f_equal. lia.
  - rewrite IH. do 3 f_equal. lia.
Qed.

Lemma ids_from_elem (n : Z) (k : nat) (x : Z) :
  x ∈ ids_from n k <-> n <= x < n + Z.of_nat k.
Proof.
  revert n. induction k as [|k IH]; intros n; simpl.
  - split; [intros H; inversion H | lia].
  - rewrite elem_of_cons, IH. lia.
Qed.

Lemma ids_from_NoDup (n : Z) (k : nat) : NoDup (ids_from n k).
Proof.
  revert n. induction k as [|k IH]; intros n; simpl; constructor.
  - rewrite ids_from_elem. lia.
  - apply IH.
Qed.

Lemma known_mono (log more : list creature) (x : creature) :
  known log x -> known (log ++ more) x.
Proof.
  intros (b & Hb & H). exists b. split; [|exact H].
  apply elem_of_app. now left.
Qed.

Lemma NoDup_replace_fresh (S L : list Z) (a n : Z) :
  NoDup (S ++ a :: L) ->
  Forall (fun z => z < n) S -> Forall (fun z => z < n) L ->
  NoDup (S ++ n :: L).
Proof.
  intros Hnd HS HL.
  apply NoDup_app in Hnd as (H1 & H2 & H3).
  apply NoDup_cons in H3 as (H3 & H4).
  apply NoDup_app. split; [exact H1|]. split.
  - intros z Hz Hin. apply elem_of_cons in Hin as [->|Hin].
    + rewrite Forall_forall in HS. specialize (HS _ Hz). lia.
    + apply (H2 z Hz). now right.
  - apply NoDup_cons. split; [|exact H4].
    intros Hin. rewrite Forall_forall in HL. specialize (HL _ Hin). lia.
Qed.

(** One step of [respawn_list] in a hypothesis: name the result of the
    recursive call, which cannot be a raised exception. *)
Ltac respawn_rec Hrun Hrec :=
  match type of Hrun with
  | context [respawn_list ?avg ?p ?n ?new ?w] =>
      let q := fresh "q" in
      let n' := fresh "n" in
      let new' := fresh "new" in
      let w' := fresh "w" in
      let e := fresh "e" in
      destruct (respawn_list avg p n new w)
        as [[[[q n'] new']|e] w'] eqn:Hrec;
      [|discriminate Hrun];
      inversion Hrun; subst; clear Hrun
  end.

Section RespawnPass.

(** The average power of the survivors, around which newborns are drawn. *)
Variable avg : Q.

(** The pass returns, and spawns [min new (dead p)] creatures: [n] and [new]
    move by that much, one draw is taken for each, and the creatures created
    carry the ids [n], [n+1], ... in creation order. *)
Lemma respawn_list_run (p : list creature) (n new : Z) (w : world) :
  0 <= new ->
  exists q n' new' B w',
    respawn_list avg p n new w = (Ok (q, n', new'), w') /\
    n' = n + Z.min new (dead p) /\ new' = new - Z.min new (dead p) /\
    length q = length p /\
    draws w' = draws w /\
    pos w' = (pos w + Z.to_nat (Z.min new (dead p)))%nat /\
    out w' = out w /\
    born w' = born w ++ B /\
    map c_id B = ids_from n (Z.to_nat (Z.min new (dead p))) /\
    Forall (fun b => b ∈ q /\ c_l b = Alive /\ c_a b = 0) B.
Proof.
  revert n new w. induction p as [|x p IH]; intros n new w Hnew.
  - exists [], n, new, [], w. simpl.
    replace (Z.min new 0) with 0 by lia. simpl.
    rewrite app_nil_r. repeat split; try lia. constructor.
  - pose proof (dead_nonneg p) as Hdp.
    cbn [respawn_list dead].
    destruct (new =? 0) eqn:E0.
    { apply Z.eqb_eq in E0. subst new.
      exists (x :: p), n, 0, [], w.
      replace (Z.min 0 _) with 0 by (destruct (life_eqb _ _); lia). simpl.
      rewrite app_nil_r. repeat split; try lia. constructor. }
    apply Z.eqb_neq in E0.
    destruct (life_eqb (c_l x) Dead) eqn:Ed.
    + unfold bind at 1 2 3, draw, create.
      set (v := {| c_s := (avg + draws w (pos w))%Q; c_l := Alive;
                   c_id := n; c_a := 0 |}).
      set (w1 := {| draws := _; pos := _; out := _; born := _ |}).
      destruct (IH (n + 1) (new - 1) w1 ltac:(lia))
        as (q & n' & new' & B & w' & Hrun & Hn & Hw & Hlen & Hd & Hp & Ho & Hb
            & Hids & HB).
      rewrite Hrun. unfold ret.
      exists (v :: q), n', new', (v :: B), w'.
      replace (Z.min new (1 + dead p)) with (1 + Z.min (new - 1) (dead p)) by lia.
      split; [reflexivity|].
      repeat split; try lia.
      * simpl. now rewrite Hlen.
      * exact Hd.
      * rewrite Hp. subst w1. simpl. lia.
      * exact Ho.
      * rewrite Hb. subst w1. simpl. now rewrite <- app_assoc.
      * replace (Z.to_nat (1 + Z.min (new - 1) (dead p)))
          with (S (Z.to_nat (Z.min (new - 1) (dead p)))) by lia.
        simpl. now rewrite Hids.
      * constructor.
        -- repeat split; [left | reflexivity..].
        -- eapply Forall_impl; [exact HB|].
           intros b (Hb1 & Hb2 & Hb3). repeat split; [now right|assumption..].
    + unfold bind at 1.
      destruct (IH n new w Hnew)
        as (q & n' & new' & B & w' & Hrun & Hn & Hw & Hlen & Hd & Hp & Ho & Hb
            & Hids & HB).
      rewrite Hrun. unfold ret.
      exists (older x :: q), n', new', B, w'.
      replace (0 + dead p) with (dead p) by lia.
      split; [reflexivity|].
      repeat split; try assumption.
      * simpl. now rewrite Hlen.
      * eapply Forall_impl; [exact HB|].
        intros b (Hb1 & Hb2 & Hb3). repeat split; [now right|assumption..].
Qed.


Lemma respawn_list_ids (p : list creature) :
  forall (n new : Z) (w : world) q n' new' w' (S : list Z),
    respawn_list avg p n new w = (Ok (q, n', new'), w') ->
    Forall (fun z => z < n) S ->
    Forall (fun x => c_id x < n) p ->
    NoDup (S ++ map c_id p) ->
    NoDup (S ++ map c_id q) /\ Forall (fun x => c_id x < n') q /\ n <= n'.
Proof.
  induction p as [|y p IH]; intros n new w q n' new' w' S Hrun HS Hp Hnd.
  - inversion Hrun; subst. repeat split; [assumption.. | lia].
  - cbn [respawn_list] in Hrun.
    destruct (new =? 0).
    { inversion Hrun; subst. repeat split; [assumption.. | lia]. }
    apply Forall_cons in Hp as (Hy & Hp).
    assert (Forall (fun z => z < n) (map c_id p)) as Hpm
      by (apply Forall_map; exact Hp).
    destruct (life_eqb (c_l y) Dead).
    + unfold bind at 1 2 3, draw, create in Hrun.
      respawn_rec Hrun Hrec.
      destruct (IH _ _ _ _ _ _ _ (S ++ [n]) Hrec) as (H1 & H2 & H3).
      * apply Forall_app. split.
        -- eapply Forall_impl; [exact HS|]. simpl. intros; lia.
        -- repeat constructor. lia.
      * eapply Forall_impl; [exact Hp|]. simpl. intros; lia.
      * rewrite <- shift_mid. simpl in Hnd.
        eapply NoDup_replace_fresh; eassumption.
      * simpl. rewrite shift_mid. split; [exact H1|].
        split; [|lia]. constructor; [simpl; lia | exact H2].
    + unfold bind at 1 in Hrun.
      respawn_rec Hrun Hrec.
      destruct (IH _ _ _ _ _ _ _ (S ++ [c_id y]) Hrec) as (H1 & H2 & H3).
      * apply Forall_app. split; [exact HS|]. repeat constructor. exact Hy.
      * exact Hp.
      * rewrite <- shift_mid. exact Hnd.
      * simpl. rewrite shift_mid. split; [exact H1|].
        split; [|exact H3]. constructor; [simpl; lia | exact H2].
Qed.

Lemma respawn_list_known (p : list creature) :
  forall (n new : Z) (w : world) q n' new' w',
    respawn_list avg p n new w = (Ok (q, n', new'), w') ->
    (exists B, born w' = born w ++ B) /\
    (Forall (known (born w)) p -> Forall (known (born w')) q).
Proof.
  induction p as [|y p IH]; intros n new w q n' new' w' Hrun.
  - inversion Hrun; subst. split; [exists []; now rewrite app_nil_r | auto].
  - cbn [respawn_list] in Hrun.
    destruct (new =? 0).
    { inversion Hrun; subst. split; [exists []; now rewrite app_nil_r | auto]. }
    destruct (life_eqb (c_l y) Dead).
    + unfold bind at 1 2 3, draw, create in Hrun.
      respawn_rec Hrun Hrec.
      destruct (IH _ _ _ _ _ _ _ Hrec) as ((B & HB) & Hk). simpl in HB, Hk.
      split.
      * eexists. rewrite HB, <- app_assoc. reflexivity.
      * intros Hp. apply Forall_cons in Hp as (_ & Hp). constructor.
        -- eexists. split; [|split; reflexivity].
           rewrite HB. apply elem_of_app. left. apply elem_of_app. right. left.
        -- apply Hk. eapply Forall_impl; [exact Hp|].
           intros x. apply known_mono.
    + unfold bind at 1 in Hrun.
      respawn_rec Hrun Hrec.
      destruct (IH _ _ _ _ _ _ _ Hrec) as ((B & HB) & Hk).
      split; [exists B; exact HB|].
      intros Hp. apply Forall_cons in Hp as (Hy & Hp). constructor.
      * destruct Hy as (b & Hb & Hid & Hs). exists b.
        split; [|split; assumption]. rewrite HB. apply elem_of_app. now left.
      * apply Hk, Hp.
Qed.

Lemma respawn_list_length (p : list creature) :
  forall (n new : Z) (w : world),
  exists q n' new' w',
    respawn_list avg p n new w = (Ok (q, n', new'), w') /\
    length q = length p.
Proof.
  induction p as [|x p IH]; intros n new w; cbn [respawn_list].
  - now exists [], n, new, w.
  - destruct (new =? 0); [now exists (x :: p), n, new, w|].
    destruct (life_eqb (c_l x) Dead).
    + unfold bind at 1 2 3, draw, create.
      match goal with
      | |- context [respawn_list avg p ?a ?b ?c] =>
          destruct (IH a b c) as (q & n' & new' & w' & Hrun & Hlen)
      end.
      rewrite Hrun. eexists _, _, _, _. split; [reflexivity|].
      simpl. now rewrite Hlen.
    + unfold bind at 1.
      destruct (IH n new w) as (q & n' & new' & w' & Hrun & Hlen).
      rewrite Hrun. eexists _, _, _, _. split; [reflexivity|].
      simpl. now rewrite Hlen.
Qed.

End RespawnPass.

(** ** initialize *)

Lemma initialize_loop_spec (idx : list nat) :
  forall (p : list creature) (n : Z) (w : world),
  exists B w',
    initialize_loop idx p n w = (Ok (p ++ B, n + Z.of_nat (length idx)), w') /\
    length B = length idx /\
    map c_id B = ids_from n (length idx) /\
    Forall (fun b => c_l b = Alive /\ c_a b = 0) B /\
    (forall i, (i < length idx)%nat ->
               c_s <$> B !! i = Some (draws w (pos w + i))) /\
    born w' = born w ++ B /\ out w' = out w /\ draws w' = draws w /\
    pos w' = (pos w + length idx)%nat.
Proof.
  induction idx as [|j idx IH]; intros p n w.
  - exists [], w. simpl. rewrite !app_nil_r, Z.add_0_r, Nat.add_0_r.
    repeat split; try constructor. intros; lia.
  - cbn [initialize_loop]. unfold bind at 1 2, draw, create.
    set (v := {| c_s := draws w (pos w); c_l := Alive; c_id := n; c_a := 0 |}).
    set (w1 := {| draws := _; pos := _; out := _; born := _ |}).
    destruct (IH (p ++ [v]) (n + 1) w1)
      as (B & w' & Hrun & Hlen & Hids & HB & Hs & Hb & Ho & Hd & Hp).
    exists (v :: B), w'. rewrite Hrun. split.
    { rewrite <- app_assoc. simpl length. do 3 f_equal. lia. }
    simpl length. repeat split.
    + now rewrite Hlen.
    + simpl. now rewrite Hids.
    + constructor; [now split | exact HB].
    + intros [|i] Hi; simpl.
      * now rewrite Nat.add_0_r.
      * rewrite Hs by lia. subst w1. simpl. do 2 f_equal. lia.
    + rewrite Hb. subst w1. simpl. now rewrite <- app_assoc.
    + exact Ho.
    + exact Hd.
    + rewrite Hp. subst w1. simpl. lia.
Qed.

Lemma initialize_spec (pop : Z) (w : world) :
  exists p w',
    initialize pop w = (Ok (p, Z.of_nat (Z.to_nat pop)), w') /\
    length p = Z.to_nat pop /\
    map c_id p = ids_from 0 (Z.to_nat pop) /\
    Forall (fun b => c_l b = Alive /\ c_a b = 0) p /\
    (forall i, (i < Z.to_nat pop)%nat ->
               c_s <$> p !! i = Some (draws w (pos w + i))) /\
    born w' = born w ++ p /\ out w' = out w /\ draws w' = draws w.
Proof.
  unfold initialize, range.
  destruct (initialize_loop_spec (seq 0 (Z.to_nat pop)) [] 0 w)
    as (B & w' & Hrun & Hlen & Hids & HB & Hs & Hb & Ho & Hd & _).
  rewrite length_seq in *. simpl in Hrun.
  exists B, w'. repeat split; assumption.
Qed.

(** ** print_living *)

Lemma print_living_loop_spec (p : list creature) (pop : Z) :
  forall (e : extremes) (w : world),
  exists evs,
    print_living_loop p pop e w
    = (Ok (scan p e),
       {| draws := draws w; pos := pos w; out := out w ++ evs;
          born := born w |}) /\
    Forall census_event evs /\
    (20 < pop -> evs = []).
Proof.
  induction p as [|i p IH]; intros e w.
  - exists []. simpl. rewrite app_nil_r. destruct w. repeat split; constructor.
  - cbn [print_living_loop scan]. destruct (life_eqb (c_l i) Alive).
    + unfold bind. destruct (pop <=? 20) eqn:E.
      * unfold print.
        match goal with
        | |- context [print_living_loop p pop ?e1 ?w1] =>
            destruct (IH e1 w1) as (evs & Hrun & Hev & Hbig)
        end.
        rewrite Hrun. simpl. exists (PCreature (c_id i) (c_s i) :: evs).
        rewrite <- app_assoc. split; [reflexivity|].
        split; [constructor; [exact I | exact Hev]|].
        intros Hpop. apply Z.leb_le in E. lia.
      * unfold ret. destruct (IH (extremes_step e i) w) as (evs & Hrun & Hev & Hbig).
        rewrite Hrun. exists evs. repeat split; assumption.
    + apply IH.
Qed.

Lemma print_living_spec (p : list creature) (pop : Z) (w : world) :
  let e := scan p extremes0 in
  exists evs,
    print_living p pop w
    = (Ok (strong e, sid e, old e, oid e),
       {| draws := draws w; pos := pos w; out := out w ++ evs;
          born := born w |}) /\
    Forall census_event evs /\
    (20 < pop ->
     evs = PExtremes (wid e) (weak e) (sid e) (strong e)
           :: (if old e >? 1 then [POldest (oid e) (old e)] else [])).
Proof.
  intros e. unfold print_living. unfold bind at 1.
  destruct (print_living_loop_spec p pop extremes0 w) as (evs & Hrun & Hev & Hbig).
  rewrite Hrun. fold e. unfold bind at 1.
  destruct (pop >? 20) eqn:E.
  - assert (20 < pop) as Hpop by lia. rewrite (Hbig Hpop).
    unfold bind, print, ret. simpl. rewrite app_nil_r.
    destruct (old e >? 1); simpl.
    + eexists. rewrite <- app_assoc. split; [reflexivity|].
      split; [repeat constructor | reflexivity].
    + eexists. split; [reflexivity|].
      split; [repeat constructor | reflexivity].
  - exists evs. unfold ret. split; [reflexivity|]. split; [exact Hev|]. lia.
Qed.

Lemma step_weak (e : extremes) (i : creature) :
  let upd := Qltb (c_s i) (weak e) || Qeq_bool (weak e) 0 in
  weak (extremes_step e i) = (if upd then c_s i else weak e) /\
  wid (extremes_step e i) = (if upd then c_id i else wid e).
Proof.
  unfold extremes_step.
  destruct (Qltb (c_s i) (weak e) || Qeq_bool (weak e) 0); simpl;
    destruct (Qltb _ (c_s i)); simpl; destruct (_ <? c_a i); simpl; auto.
Qed.

Lemma step_strong (e : extremes) (i : creature) :
  let upd := Qltb (strong e) (c_s i) in
  strong (extremes_step e i) = (if upd then c_s i else strong e) /\
  sid (extremes_step e i) = (if upd then c_id i else sid e).
Proof.
  unfold extremes_step.
  destruct (Qltb (c_s i) (weak e) || Qeq_bool (weak e) 0); simpl;
    destruct (Qltb (strong e) (c_s i)); simpl; destruct (_ <? c_a i); simpl; auto.
Qed.

Lemma step_old (e : extremes) (i : creature) :
  let upd := old e <? c_a i in
  old (extremes_step e i) = (if upd then c_a i else old e) /\
  oid (extremes_step e i) = (if upd then c_id i else oid e).
Proof.
  unfold extremes_step.
  destruct (Qltb (c_s i) (weak e) || Qeq_bool (weak e) 0); simpl;
    destruct (Qltb (strong e) (c_s i)); simpl; destruct (old e <? c_a i);
    simpl; auto.
Qed.

Lemma life_eqb_Alive (x : creature) :
  life_eqb (c_l x) Alive = true <-> c_l x = Alive.
Proof. destruct (c_l x); simpl; split; congruence. Qed.

Lemma scan_strong (p : list creature) :
  forall e : extremes,
    (strong e <= strong (scan p e))%Q /\
    (forall y, y ∈ p -> c_l y = Alive -> (c_s y <= strong (scan p e))%Q) /\
    (strong (scan p e) = strong e /\ sid (scan p e) = sid e \/
     (strong e < strong (scan p e))%Q /\
     exists x, x ∈ p /\ c_l x = Alive /\
               c_s x = strong (scan p e) /\ c_id x = sid (scan p e)).
Proof.
  induction p as [|i p IH]; intros e; cbn [scan].
  - split; [apply Qle_refl|]. split; [|now left].
    intros y Hy. inversion Hy.
  - destruct (life_eqb (c_l i) Alive) eqn:Ei.
    + apply life_eqb_Alive in Ei.
      destruct (IH (extremes_step e i)) as (H1 & H2 & H3).
      destruct (step_strong e i) as (Hs & Hi). cbn zeta in Hs, Hi.
      destruct (Qltb (strong e) (c_s i)) eqn:Eu.
      * apply Qltb_lt in Eu. rewrite Hs in H1, H3. rewrite Hi in H3.
        split; [eapply Qle_trans; [apply Qlt_le_weak, Eu | exact H1]|].
        split.
        -- intros y Hy Ha. apply elem_of_cons in Hy as [->|Hy]; auto.
        -- right. split; [eapply Qlt_le_trans; eassumption|].
           destruct H3 as [(E1 & E2) | (_ & x & Hx & Ha & E1 & E2)].
           ++ exists i. repeat split; [left | assumption | congruence..].
           ++ exists x. repeat split; [now right | assumption..].
      * apply Qltb_ge in Eu. rewrite Hs in H1, H3. rewrite Hi in H3.
        split; [exact H1|]. split.
        -- intros y Hy Ha. apply elem_of_cons in Hy as [->|Hy]; auto.
           eapply Qle_trans; eassumption.
        -- destruct H3 as [H3 | (Hlt & x & Hx & Ha & E1 & E2)]; [now left|].
           right. split; [exact Hlt|].
           exists x. repeat split; [now right | assumption..].
    + destruct (IH e) as (H1 & H2 & H3).
      split; [exact H1|]. split.
      * intros y Hy Ha. apply elem_of_cons in Hy as [->|Hy]; auto.
        apply life_eqb_Alive in Ha. congruence.
      * destruct H3 as [H3 | (Hlt & x & Hx & Ha & E1 & E2)]; [now left|].
        right. split; [exact Hlt|].
        exists x. repeat split; [now right | assumption..].
Qed.

Lemma scan_old (p : list creature) :
  forall e : extremes,
    old e <= old (scan p e) /\
    (forall y, y ∈ p -> c_l y = Alive -> c_a y <= old (scan p e)) /\
    (old (scan p e) = old e /\ oid (scan p e) = oid e \/
     old e < old (scan p e) /\
     exists x, x ∈ p /\ c_l x = Alive /\
               c_a x = old (scan p e) /\ c_id x = oid (scan p e)).
Proof.
  induction p as [|i p IH]; intros e; cbn [scan].
  - split; [lia|]. split; [|now left].
    intros y Hy. inversion Hy.
  - destruct (life_eqb (c_l i) Alive) eqn:Ei.
    + apply life_eqb_Alive in Ei.
      destruct (IH (extremes_step e i)) as (H1 & H2 & H3).
      destruct (step_old e i) as (Hs & Hi). cbn zeta in Hs, Hi.
      destruct (old e <? c_a i) eqn:Eu.
      * apply Z.ltb_lt in Eu. rewrite Hs in H1, H3. rewrite Hi in H3.
        split; [lia|]. split.
        -- intros y Hy Ha. apply elem_of_cons in Hy as [->|Hy]; auto.
        -- right. split; [lia|].
           destruct H3 as [(E1 & E2) | (_ & x & Hx & Ha & E1 & E2)].
           ++ exists i. repeat split; [left | assumption | congruence..].
           ++ exists x. repeat split; [now right | assumption..].
      * apply Z.ltb_ge in Eu. rewrite Hs in H1, H3. rewrite Hi in H3.
        split; [exact H1|]. split.
        -- intros y Hy Ha. apply elem_of_cons in Hy as [->|Hy]; auto. lia.
        -- destruct H3 as [H3 | (Hlt & x & Hx & Ha & E1 & E2)]; [now left|].
           right. split; [exact Hlt|].
           exists x. repeat split; [now right | assumption..].
    + destruct (IH e) as (H1 & H2 & H3).
      split; [exact H1|]. split.
      * intros y Hy Ha. apply elem_of_cons in Hy as [->|Hy]; auto.
        apply life_eqb_Alive in Ha. congruence.
      * destruct H3 as [H3 | (Hlt & x & Hx & Ha & E1 & E2)]; [now left|].
        right. split; [exact Hlt|].
        exists x. repeat split; [now right | assumption..].
Qed.

Lemma Qeq_bool_false (x y : Q) : ~ (x == y)%Q -> Qeq_bool x y = false.
Proof.
  intros H. apply not_true_iff_false. intros E. apply H, Qeq_bool_iff, E.
Qed.

(** Once [weak] holds a nonzero power, the loop keeps a running minimum. *)
Lemma scan_weak_set (p : list creature) :
  forall e : extremes,
    ~ (weak e == 0)%Q ->
    (forall x, x ∈ p -> c_l x = Alive -> ~ (c_s x == 0)%Q) ->
    (weak (scan p e) <= weak e)%Q /\
    (forall y, y ∈ p -> c_l y = Alive -> (weak (scan p e) <= c_s y)%Q) /\
    (weak (scan p e) = weak e /\ wid (scan p e) = wid e \/
     exists x, x ∈ p /\ c_l x = Alive /\
               c_s x = weak (scan p e) /\ c_id x = wid (scan p e)).
Proof.
  induction p as [|i p IH]; intros e He Hnz; cbn [scan].
  - split; [apply Qle_refl|]. split; [|now left].
    intros y Hy. inversion Hy.
  - assert (forall x, x ∈ p -> c_l x = Alive -> ~ (c_s x == 0)%Q) as Hnz'
      by (intros x Hx; apply Hnz; now right).
    destruct (life_eqb (c_l i) Alive) eqn:Ei.
    + apply life_eqb_Alive in Ei.
      destruct (step_weak e i) as (Hs & Hi). cbn zeta in Hs, Hi.
      rewrite (Qeq_bool_false _ _ He), orb_false_r in Hs, Hi.
      destruct (Qltb (c_s i) (weak e)) eqn:Eu.
      * apply Qltb_lt in Eu.
        destruct (IH (extremes_step e i)) as (H1 & H2 & H3).
        { rewrite Hs. apply Hnz; [left | exact Ei]. }
        { exact Hnz'. }
        rewrite Hs in H1, H3. rewrite Hi in H3.
        split; [eapply Qle_trans; [exact H1 | apply Qlt_le_weak, Eu]|].
        split.
        -- intros y Hy Ha. apply elem_of_cons in Hy as [->|Hy]; auto.
        -- right.
           destruct H3 as [(E1 & E2) | (x & Hx & Ha & E1 & E2)].
           ++ exists i. repeat split; [left | assumption | congruence..].
           ++ exists x. repeat split; [now right | assumption..].
      * apply Qltb_ge in Eu.
        destruct (IH (extremes_step e i)) as (H1 & H2 & H3).
        { now rewrite Hs. }
        { exact Hnz'. }
        rewrite Hs in H1, H3. rewrite Hi in H3.
        split; [exact H1|]. split.
        -- intros y Hy Ha. apply elem_of_cons in Hy as [->|Hy]; auto.
           eapply Qle_trans; eassumption.
        -- destruct H3 as [H3 | (x & Hx & Ha & E1 & E2)]; [now left|].
           right. exists x. repeat split; [now right | assumption..].
    + destruct (IH e He Hnz') as (H1 & H2 & H3).
      split; [exact H1|]. split.
      * intros y Hy Ha. apply elem_of_cons in Hy as [->|Hy]; auto.
        apply life_eqb_Alive in Ha. congruence.
      * destruct H3 as [H3 | (x & Hx & Ha & E1 & E2)]; [now left|].
        right. exists x. repeat split; [now right | assumption..].
Qed.

(** From [weak == 0], the first living creature sets [weak]. *)
Lemma scan_weak_unset (p : list creature) :
  forall e : extremes,
    (weak e == 0)%Q ->
    (exists x, x ∈ p /\ c_l x = Alive) ->
    (forall x, x ∈ p -> c_l x = Alive -> ~ (c_s x == 0)%Q) ->
    weakest p (weak (scan p e)) (wid (scan p e)).
Proof.
  induction p as [|i p IH]; intros e He (x0 & Hx0 & Ha0) Hnz; cbn [scan].
  - inversion Hx0.
  - assert (forall x, x ∈ p -> c_l x = Alive -> ~ (c_s x == 0)%Q) as Hnz'
      by (intros x Hx; apply Hnz; now right).
    destruct (life_eqb (c_l i) Alive) eqn:Ei.
    + apply life_eqb_Alive in Ei.
      destruct (step_weak e i) as (Hs & Hi). cbn zeta in Hs, Hi.
      apply Qeq_bool_iff in He. rewrite He, orb_true_r in Hs, Hi.
      destruct (scan_weak_set p (extremes_step e i)) as (H1 & H2 & H3).
      { rewrite Hs. apply Hnz; [left | exact Ei]. }
      { exact Hnz'. }
      rewrite Hs in H1, H3. rewrite Hi in H3. split.
      * intros y Hy Ha. apply elem_of_cons in Hy as [->|Hy]; auto.
      * destruct H3 as [(E1 & E2) | (x & Hx & Ha & E1 & E2)].
        -- exists i. repeat split; [left | assumption | congruence..].
        -- exists x. repeat split; [now right | assumption..].
    + apply elem_of_cons in Hx0 as [->|Hx0].
      { apply life_eqb_Alive in Ha0. congruence. }
      destruct (IH e He (ex_intro _ x0 (conj Hx0 Ha0)) Hnz') as (H2 & x & Hx & Ha & E1 & E2).
      split.
      * intros y Hy Hy'. apply elem_of_cons in Hy as [->|Hy]; auto.
        apply life_eqb_Alive in Hy'. congruence.
      * exists x. repeat split; [now right | assumption..].
Qed.

(** C5, as the code has it.  [print_living] returns the strongest living
    creature when some living creature has positive power.  It returns the
    oldest living creature when some living creature is older than 1, and
    age 1 with id 0 when none is.  The weakest living creature, printed for
    populations above 20, is found when no living creature has power 0. *)
Theorem print_living_extremes (p : list creature) (pop : Z) (w : world) :
  let e := scan p extremes0 in
  exists w',
    print_living p pop w = (Ok (strong e, sid e, old e, oid e), w') /\
    (20 < pop ->
     exists evs,
       out w' = out w ++ PExtremes (wid e) (weak e) (sid e) (strong e) :: evs) /\
    ((exists x, x ∈ p /\ c_l x = Alive /\ (0 < c_s x)%Q) ->
     strongest p (strong e) (sid e)) /\
    ((exists x, x ∈ p /\ c_l x = Alive /\ 1 < c_a x) ->
     eldest p (old e) (oid e)) /\
    ((forall x, x ∈ p -> c_l x = Alive -> c_a x <= 1) ->
     old e = 1 /\ oid e = 0) /\
    ((exists x, x ∈ p /\ c_l x = Alive) ->
     (forall x, x ∈ p -> c_l x = Alive -> ~ (c_s x == 0)%Q) ->
     weakest p (weak e) (wid e)).
Proof.
  intros e.
  destruct (print_living_spec p pop w) as (evs & Hrun & _ & Hbig).
  fold e in Hrun, Hbig.
  eexists. split; [exact Hrun|]. cbn [out].
  split; [intros Hpop; rewrite (Hbig Hpop); eauto|].
  destruct (scan_strong p extremes0) as (S1 & S2 & S3).
  destruct (scan_old p extremes0) as (O1 & O2 & O3).
  fold e in S1, S2, S3, O1, O2, O3. cbn [strong sid old oid extremes0] in *.
  split; [|split; [|split]].
  - intros (x & Hx & Ha & Hpos). split; [exact S2|].
    destruct S3 as [(E1 & _) | (_ & H)]; [|exact H].
    exfalso. specialize (S2 x Hx Ha). rewrite E1 in S2.
    exact (Qlt_not_le _ _ Hpos S2).
  - intros (x & Hx & Ha & Hage). split; [exact O2|].
    destruct O3 as [(E1 & _) | (_ & H)]; [|exact H].
    specialize (O2 x Hx Ha). lia.
  - intros Hyoung.
    destruct O3 as [H | (Hlt & x & Hx & Ha & E1 & _)]; [exact H|].
    specialize (Hyoung x Hx Ha). lia.
  - intros Hex Hnz. apply scan_weak_unset; [reflexivity | exact Hex | exact Hnz].
Qed.

Lemma print_living_extremes_witness :
  let p := [Creature 3 Alive 7 2; Creature 0 Dead 1 4; Creature 1 Alive 8 0] in
  strongest p 3 7 /\ eldest p 2 7 /\ weakest p 1 8.
Proof.
  intros p.
  destruct (print_living_extremes p 30 (start (oracle [])))
    as (w' & _ & _ & Hs & Ho & _ & Hw).
  split; [|split].
  - apply Hs. exists (Creature 3 Alive 7 2).
    split; [left | split; reflexivity].
  - apply Ho. exists (Creature 3 Alive 7 2).
    split; [left | split; [reflexivity | simpl; lia]].
  - apply Hw.
    + exists (Creature 3 Alive 7 2). split; [left | reflexivity].
    + intros x Hx Ha Hz.
      apply elem_of_cons in Hx as [->|Hx]; [discriminate Hz|].
      apply elem_of_cons in Hx as [->|Hx]; [discriminate Ha|].
      apply elem_of_cons in Hx as [->|Hx]; [discriminate Hz|].
      inversion Hx.
Defined.

(** C5 as claimed fails on the population [initialize] makes: every age is 0,
    yet [print_living] returns the age 1, which no living creature has. *)
Lemma print_living_counterexample :
  let w := start (oracle [1%Q; 2%Q]) in
  let p := [Creature 1 Alive 0 0; Creature 2 Alive 1 0] in
  fst (initialize 2 w) = Ok (p, 2) /\
  (exists x, x ∈ p /\ c_l x = Alive) /\
  fst (print_living p 2 (snd (initialize 2 w))) = Ok (2%Q, 1, 1, 0) /\
  ~ eldest p 1 0.
Proof.
  intros w p. split; [reflexivity|]. split.
  - exists (Creature 1 Alive 0 0). split; [left | reflexivity].
  - split; [reflexivity|].
    intros (_ & x & Hx & _ & Hage & _).
    apply elem_of_cons in Hx as [->|Hx]; [discriminate Hage|].
    apply elem_of_cons in Hx as [->|Hx]; [discriminate Hage|].
    inversion Hx.
Qed.

(** With no positive power among the living, [strong] stays at its initial
    0 and [sid] at 0. *)
Example print_living_negative_powers :
  let p := [Creature (-1) Alive 5 2; Creature (-2) Alive 6 2] in
  fst (print_living p 2 (start (oracle []))) = Ok (0%Q, 0, 2, 5) /\
  ~ strongest p 0 0.
Proof.
  intros p. split; [reflexivity|].
  intros (_ & x & Hx & _ & Hs & _).
  apply elem_of_cons in Hx as [->|Hx]; [discriminate Hs|].
  apply elem_of_cons in Hx as [->|Hx]; [discriminate Hs|].
  inversion Hx.
Qed.

(** ** One generation *)

Lemma bind_ok {A B} (m : M A) (k : A -> M B) (w w' : world) (x : A) :
  m w = (Ok x, w') -> bind m k w = k x w'.
Proof. intros H. unfold bind. now rewrite H. Qed.

Lemma census_guarded (evs : list event) :
  Forall census_event evs -> Forall guarded evs.
Proof.
  intros H. eapply Forall_impl; [exact H|].
  intros [] Hev; simpl in *; solve [exact I | contradiction].
Qed.

Lemma not_extinct_living (p : list creature) :
  extinct p = false -> 2 <= living p.
Proof.
  unfold extinct, average. intros H. apply orb_false_iff in H as (H0 & H1).
  apply Z.eqb_neq in H1. pose proof (living_nonneg p).
  destruct (living p =? 0) eqn:E; [discriminate H0|].
  apply Z.eqb_neq in E. lia.
Qed.

Lemma culled_ids (p p' : list creature) :
  Forall2 culled p p' -> map c_id p' = map c_id p.
Proof.
  induction 1 as [|x x' p p' Hx _ IH]; [reflexivity|].
  simpl. rewrite IH. f_equal. now destruct Hx as [->| ->].
Qed.

Lemma culled_known (log : list creature) (p p' : list creature) :
  Forall2 culled p p' -> Forall (known log) p -> Forall (known log) p'.
Proof.
  induction 1 as [|x x' p p' Hx _ IH]; intros Hk; [constructor|].
  apply Forall_cons in Hk as (Hkx & Hk). constructor; [|now apply IH].
  destruct Hkx as (b & Hb & Hi & Hs). exists b.
  destruct Hx as [->| ->]; simpl; auto.
Qed.

Lemma respawn_loop_full (avg mut : Q) (p : list creature) (pop n new : Z)
    (w : world) :
  length p = Z.to_nat pop ->
  respawn_loop (range pop) avg mut p n new w = respawn_list avg p n new w.
Proof.
  intros Hlen. unfold range. rewrite <- Hlen.
  pose proof (respawn_loop_list avg mut [] p [] n new w) as H.
  simpl in H. rewrite app_nil_r in H. rewrite H. unfold bind, ret.
  destruct (respawn_list avg p n new w) as [[[[q n'] new']|e] w']; [|reflexivity].
  simpl. now rewrite app_nil_r.
Qed.

Lemma ids_below_culled (p p' : list creature) (n : Z) :
  Forall2 culled p p' ->
  Forall (fun x => c_id x < n) p -> Forall (fun x => c_id x < n) p'.
Proof.
  induction 1 as [|x x' p p' Hx _ IH]; intros Hk; [constructor|].
  apply Forall_cons in Hk as (Hkx & Hk). constructor; [|now apply IH].
  now destruct Hx as [->| ->].
Qed.

(** One iteration of the loop of [simulate], on a population of [pop]
    slots: it raises nothing; it prints the generation, then either the
    extinction report or events that are [guarded]; the creatures it creates
    carry the next ids in order. *)
Lemma generation_step (pop gen : Z) (st : locals) (w : world) :
  length (v_p st) = Z.to_nat pop ->
  exists f evs B w',
    generation pop gen st w = (Ok f, w') /\
    draws w' = draws w /\
    out w' = out w ++ PGeneration gen :: evs /\ Forall guarded evs /\
    born w' = born w ++ B /\
    map c_id B = ids_from (v_n st) (length B) /\
    match f with
    | Return =>
        extinct (v_p st) = true /\ B = [] /\
        evs = [PExtinct;
               PStats gen (v_n st) (v_fittest st) (v_fitid st) (v_old_env st)
                      (v_oldest st) (v_oldid st) (v_oldgen st)]
    | Next st' =>
        extinct (v_p st) = false /\
        length (v_p st') = length (v_p st) /\
        v_n st' = v_n st + Z.of_nat (length B) /\
        (ids_ok (v_p st) (v_n st) -> ids_ok (v_p st') (v_n st')) /\
        (Forall (known (born w)) (v_p st) ->
         Forall (known (born w')) (v_p st'))
    end.
Proof.
  intros Hlen. unfold generation.
  unfold bind at 1, print at 1.
  erewrite bind_ok by (apply parent_power_spec; exact Hlen).
  cbv beta iota.
  change (Qeq_bool (average (v_p st)) 0 || (living (v_p st) =? 1))
    with (extinct (v_p st)).
  destruct (extinct (v_p st)) eqn:Eext.
  - unfold bind, print, print_stats, ret. simpl.
    eexists Return, _, [], _. split; [reflexivity|]. simpl.
    split; [reflexivity|].
    split; [rewrite <- !app_assoc; reflexivity|].
    split; [repeat constructor|].
    rewrite app_nil_r. repeat split; reflexivity.
  - pose proof (not_extinct_living _ Eext) as Hliv.
    set (p := v_p st) in *. set (count := living p) in *.
    assert (0 <= count * 2) as Hquota by lia.
    unfold bind at 1, print at 1. cbn [draws pos out born].
    (* print_living *)
    match goal with
    | |- context [bind (print_living p pop) _ ?w0] =>
        destruct (print_living_spec p pop w0) as (evs1 & Hpl & Hev1 & _);
        rewrite (bind_ok _ _ _ _ _ Hpl)
    end.
    cbv beta iota zeta. cbn [draws pos out born].
    (* 6 / count *)
    erewrite bind_ok
      by (unfold truediv; rewrite inject_Z_nonzero by lia; reflexivity).
    (* the respawn loop *)
    match goal with
    | |- context [bind (respawn_loop _ ?avg ?mut p ?n _) _ ?w2] =>
        destruct (respawn_list_run avg p n (count * 2) w2 Hquota)
          as (q & n' & new' & B & w3 & Hrun & Hn & Hnew & Hq & Hd3 & Hp3 & Ho3
              & Hb3 & Hids & HB);
        rewrite (bind_ok _ _ w2 w3 (q, n', new'))
          by (rewrite respawn_loop_full by exact Hlen; exact Hrun)
    end.
    cbv beta iota. unfold bind at 1, print at 1.
    (* pressure *)
    match goal with
    | |- context [bind (pressure q gen pop) _ ?w3'] =>
        destruct (pressure_spec q gen pop w3' ltac:(fold p in Hlen; lia))
          as (p' & w4 & Hpr & Hcull & Hd4 & Ho4 & Hb4 & Hp4);
        rewrite (bind_ok _ _ _ _ _ Hpr)
    end.
    cbv beta iota. unfold bind, print, ret.
    cbn [draws pos out born] in *.
    pose proof (dead_nonneg p) as Hdead.
    assert (length B = Z.to_nat (Z.min (count * 2) (dead p))) as HlenB.
    { apply (f_equal length) in Hids.
      now rewrite length_map, ids_from_length in Hids. }
    eexists (Next _), _, B, _. split; [reflexivity|].
    cbn [draws pos out born v_p v_n].
    split; [congruence|].
    split.
    { rewrite Ho4, Ho3. rewrite <- !app_assoc. simpl. reflexivity. }
    split.
    { constructor; [exact Hliv|]. apply Forall_app. split.
      - apply census_guarded, Hev1.
      - constructor; [|repeat constructor].
        exists gen, count. split; [exact Hliv | reflexivity]. }
    split; [congruence|].
    split; [rewrite HlenB; exact Hids|].
    split; [reflexivity|].
    split; [rewrite <- (Forall2_length _ _ _ Hcull); exact Hq|].
    split; [lia|].
    split.
    + intros (Hnd & Hlt).
      destruct (respawn_list_ids _ _ _ _ _ _ _ _ _ [] Hrun) as (H1 & H2 & _);
        [constructor | exact Hlt | exact Hnd |].
      split.
      * rewrite (culled_ids _ _ Hcull). exact H1.
      * exact (ids_below_culled _ _ _ Hcull H2).
    + intros Hk. rewrite Hb4.
      apply (culled_known _ _ _ Hcull).
      exact (proj2 (respawn_list_known _ _ _ _ _ _ _ _ _ Hrun) Hk).
Qed.

(** ** The loop of simulate *)

Lemma simulate_loop_spec (pop : Z) (gens : list nat) :
  forall (st : locals) (w : world),
    length (v_p st) = Z.to_nat pop ->
    exists f evs B w',
      simulate_loop pop gens st w = (Ok f, w') /\
      draws w' = draws w /\
      out w' = out w ++ evs /\ Forall guarded evs /\
      born w' = born w ++ B /\
      map c_id B = ids_from (v_n st) (length B) /\
      match f with
      | Return => True
      | Next st' =>
          length (v_p st') = length (v_p st) /\
          v_n st' = v_n st + Z.of_nat (length B) /\
          (ids_ok (v_p st) (v_n st) -> ids_ok (v_p st') (v_n st')) /\
          (Forall (known (born w)) (v_p st) ->
           Forall (known (born w')) (v_p st'))
      end.
Proof.
  induction gens as [|gen gens IH]; intros st w Hlen.
  - exists (Next st), [], [], w. simpl. rewrite !app_nil_r, Z.add_0_r.
    do 3 (split; [reflexivity|]). split; [constructor|].
    do 4 (split; [reflexivity|]). split; auto.
  - cbn [simulate_loop].
    destruct (generation_step pop (Z.of_nat gen) st w Hlen)
      as (f & evs & B & w1 & Hrun & Hd & Ho & Hev & Hb & Hids & Hf).
    rewrite (bind_ok _ _ _ _ _ Hrun).
    destruct f as [st1|].
    + destruct Hf as (_ & Hlen1 & Hn1 & Hok1 & Hk1).
      destruct (IH st1 w1 ltac:(congruence))
        as (f & evs2 & B2 & w2 & Hrun2 & Hd2 & Ho2 & Hev2 & Hb2 & Hids2 & Hf2).
      exists f, (PGeneration (Z.of_nat gen) :: evs ++ evs2), (B ++ B2), w2.
      split; [exact Hrun2|].
      split; [congruence|].
      split.
      { rewrite Ho2, Ho, <- app_assoc. reflexivity. }
      split.
      { constructor; [exact I|]. apply Forall_app. now split. }
      split.
      { rewrite Hb2, Hb, <- app_assoc. reflexivity. }
      split.
      { rewrite map_app, length_app, ids_from_app, Hids, Hids2.
        now rewrite Hn1. }
      destruct f as [st2|]; [|exact I].
      destruct Hf2 as (Hlen2 & Hn2 & Hok2 & Hk2).
      split; [congruence|].
      split; [rewrite length_app; lia|].
      split; [auto|].
      intros Hk. apply Hk2, Hk1, Hk.
    + exists Return, (PGeneration (Z.of_nat gen) :: evs), B, w1.
      unfold ret. repeat split; try assumption.
      constructor; [exact I | exact Hev].
Qed.

Lemma ids_from_below (n : Z) (k : nat) (p : list creature) :
  map c_id p = ids_from n k ->
  Forall (fun x => c_id x < n + Z.of_nat k) p.
Proof.
  intros H. apply Forall_forall. intros x Hx.
  assert (c_id x ∈ ids_from n k) as Hin.
  { rewrite <- H. apply list_elem_of_fmap. exists x. now split. }
  apply ids_from_elem in Hin. lia.
Qed.

(** [simulate] up to the end of its loop, from a world where nothing has
    been created yet. *)
Lemma simulate_run_spec (pop : Z) (gens : list nat) (w : world) :
  born w = [] ->
  exists f evs p0 B w',
    simulate_run pop gens w = (Ok f, w') /\
    draws w' = draws w /\
    out w' = out w ++ evs /\ Forall guarded evs /\
    fst (initialize pop w) = Ok (p0, Z.of_nat (Z.to_nat pop)) /\
    length p0 = Z.to_nat pop /\
    map c_id p0 = ids_from 0 (Z.to_nat pop) /\
    born w' = p0 ++ B /\
    map c_id (born w') = ids_from 0 (length (born w')) /\
    match f with
    | Return => True
    | Next st =>
        length (v_p st) = Z.to_nat pop /\
        v_n st = Z.of_nat (length (born w')) /\
        ids_ok (v_p st) (v_n st) /\
        Forall (known (born w')) (v_p st)
    end.
Proof.
  intros Hborn. unfold simulate_run.
  destruct (initialize_spec pop w)
    as (p0 & w1 & Hinit & Hlen0 & Hids0 & _ & _ & Hb1 & Ho1 & Hd1).
  rewrite Hborn in Hb1. simpl in Hb1.
  rewrite (bind_ok _ _ _ _ _ Hinit). cbv beta iota.
  destruct (simulate_loop_spec pop gens (locals0 p0 (Z.of_nat (Z.to_nat pop)))
              w1 Hlen0)
    as (f & evs & B & w' & Hrun & Hd & Ho & Hev & Hb & Hids & Hf).
  cbn [v_p v_n locals0] in *.
  exists f, evs, p0, B, w'. rewrite Hinit.
  split; [exact Hrun|]. split; [congruence|]. split; [congruence|].
  split; [exact Hev|]. split; [reflexivity|]. split; [exact Hlen0|].
  split; [exact Hids0|].
  assert (born w' = p0 ++ B) as Hb' by congruence.
  split; [exact Hb'|].
  assert (map c_id (born w') = ids_from 0 (length (born w'))) as Hlog.
  { rewrite Hb', map_app, length_app, ids_from_app, Hids0, Hids, Hlen0.
    reflexivity. }
  split; [exact Hlog|].
  destruct f as [st|]; [|exact I].
  destruct Hf as (Hlen & Hn & Hok & Hk).
  split; [congruence|].
  split; [rewrite Hn, Hb', length_app; lia|].
  split.
  - apply Hok. split.
    + rewrite Hids0. apply ids_from_NoDup.
    + apply ids_from_below in Hids0. simpl in Hids0. exact Hids0.
  - apply Hk. rewrite Hb1. apply Forall_forall. intros x Hx.
    exists x. repeat split. exact Hx.
Qed.

(** [simulate] returns when it is given at least one generation, and stops
    on the unbound [gen] after the loop otherwise. *)
Lemma simulate_spec (pop generations : Z) (w : world) :
  born w = [] ->
  exists f w1 evs w',
    simulate_run pop (range generations) w = (Ok f, w1) /\
    simulate pop generations w
    = (match f with
       | Return => Ok tt
       | Next _ => if generations <=? 0 then Raise UnboundLocalError else Ok tt
       end, w') /\
    born w' = born w1 /\
    out w' = out w ++ evs /\ Forall guarded evs.
Proof.
  intros Hborn.
  destruct (simulate_run_spec pop (range generations) w Hborn)
    as (f & evs & p0 & B & w1 & Hrun & _ & Ho & Hev & _).
  unfold simulate. rewrite (bind_ok _ _ _ _ _ Hrun).
  destruct f as [st|].
  - unfold bind, print, print_stats. cbn [draws pos out born].
    destruct (generations <=? 0).
    + eexists (Next st), w1, _, _. split; [exact Hrun|].
      unfold raise. split; [reflexivity|]. cbn [born out].
      split; [reflexivity|]. rewrite Ho, <- app_assoc.
      split; [reflexivity|]. apply Forall_app. split; [exact Hev|].
      repeat constructor.
    + eexists (Next st), w1, _, _. split; [exact Hrun|].
      split; [reflexivity|]. cbn [born out].
      split; [reflexivity|]. rewrite Ho, <- !app_assoc.
      split; [reflexivity|]. apply Forall_app. split; [exact Hev|].
      repeat constructor.
  - exists Return, w1, evs, w1. unfold ret.
    repeat split; assumption.
Qed.

(** ** The claims on whole runs *)

(** C7.  [simulate] never raises [ZeroDivisionError], and everything it
    prints is [guarded]: each count printed on the way to the mutation
    spread is at least 2, and each spread printed is
    [gen/100 + 3 + (6/count)^2] for a count of at least 2. *)
Theorem spread_division_guarded (pop generations : Z) (d : nat -> Q) :
  fst (simulate pop generations (start d)) <> Raise ZeroDivisionError /\
  Forall guarded (out (snd (simulate pop generations (start d)))).
Proof.
  destruct (simulate_spec pop generations (start d) eq_refl)
    as (f & w1 & evs & w' & _ & Hsim & _ & Ho & Hev).
  rewrite Hsim. cbn [fst snd]. split.
  - destruct f; [destruct (generations <=? 0)|]; discriminate.
  - rewrite Ho. exact Hev.
Qed.

(** C8.  In a run of [simulate] the creatures created, in creation order,
    carry the ids 0, 1, 2, ...: the initial population takes 0..pop-1 and
    every later creature the next id.  So no two creatures ever created
    share an id; the next id [n] is the number created so far; and the
    creatures in the population have distinct ids below [n], each the id it
    was created with. *)
Theorem ids_unique (pop generations : Z) (d : nat -> Q) :
  exists f w1 p0,
    simulate_run pop (range generations) (start d) = (Ok f, w1) /\
    born (snd (simulate pop generations (start d))) = born w1 /\
    fst (initialize pop (start d)) = Ok (p0, Z.of_nat (Z.to_nat pop)) /\
    map c_id p0 = ids_from 0 (Z.to_nat pop) /\
    take (Z.to_nat pop) (born w1) = p0 /\
    map c_id (born w1) = ids_from 0 (length (born w1)) /\
    NoDup (map c_id (born w1)) /\
    match f with
    | Return => True
    | Next st =>
        v_n st = Z.of_nat (length (born w1)) /\
        NoDup (map c_id (v_p st)) /\
        Forall (fun x => c_id x < v_n st) (v_p st) /\
        Forall (known (born w1)) (v_p st)
    end.
Proof.
  destruct (simulate_run_spec pop (range generations) (start d) eq_refl)
    as (f & evs & p0 & B & w1 & Hrun & _ & _ & _ & Hinit & Hlen0 & Hids0
        & Hb & Hlog & Hf).
  destruct (simulate_spec pop generations (start d) eq_refl)
    as (f' & w1' & evs' & w' & Hrun' & Hsim & Hb' & _).
  rewrite Hrun in Hrun'. inversion Hrun'; subst f' w1'; clear Hrun'.
  exists f, w1, p0. split; [exact Hrun|].
  split; [rewrite Hsim; exact Hb'|].
  split; [exact Hinit|]. split; [exact Hids0|].
  split; [rewrite Hb, <- Hlen0; apply take_app_length|].
  split; [exact Hlog|].
  split; [rewrite Hlog; apply ids_from_NoDup|].
  destruct f as [st|]; [|exact I].
  destruct Hf as (_ & Hn & (Hnd & Hlt) & Hk). auto.
Qed.

(** C9.  For a size [pop >= 0]: [initialize] returns a list of exactly [pop]
    creatures; on such a list the respawn loop and [pressure] return a list
    of the same length; and every population a run of [simulate] reaches
    has length [pop]. *)
Theorem population_length (pop : Z) :
  0 <= pop ->
  (forall w, exists p n w',
      initialize pop w = (Ok (p, n), w') /\ Z.of_nat (length p) = pop) /\
  (forall avg mut p n new w,
      Z.of_nat (length p) = pop ->
      exists p' n' new' w',
        respawn_loop (range pop) avg mut p n new w = (Ok (p', n', new'), w') /\
        length p' = length p) /\
  (forall p gen w,
      Z.of_nat (length p) = pop ->
      exists p' env w',
        pressure p gen pop w = (Ok (p', env), w') /\ length p' = length p) /\
  (forall gens d, exists f w',
      simulate_run pop gens (start d) = (Ok f, w') /\
      forall st, f = Next st -> Z.of_nat (length (v_p st)) = pop).
Proof.
  intros Hpop. split; [|split; [|split]].
  - intros w.
    destruct (initialize_spec pop w) as (p & w' & Hrun & Hlen & _).
    eexists p, _, w'. split; [exact Hrun | lia].
  - intros avg mut p n new w Hlen.
    rewrite respawn_loop_full by lia. apply respawn_list_length.
  - intros p gen w Hlen.
    destruct (pressure_spec p gen pop w ltac:(lia))
      as (p' & w' & Hrun & Hf & _).
    eexists p', _, w'. split; [exact Hrun|].
    symmetry. exact (Forall2_length _ _ _ Hf).
  - intros gens d.
    destruct (simulate_run_spec pop gens (start d) eq_refl)
      as (f & evs & p0 & B & w' & Hrun & _ & _ & _ & _ & _ & _ & _ & _ & Hf).
    exists f, w'. split; [exact Hrun|].
    intros st ->. destruct Hf as (Hlen & _). lia.
Qed.

Lemma population_length_witness :
  exists p n w',
    initialize 3 (start (oracle [])) = (Ok (p, n), w') /\
    Z.of_nat (length p) = 3.
Proof.
  apply (proj1 (population_length 3 ltac:(lia))).
Defined.

(** ** Where the code departs from the claims *)

(** The test that ends the run is made on the average, not on the count:
    it does hold when nobody or one creature is left ... *)
Lemma extinct_few (p : list creature) :
  living p = 0 \/ living p = 1 -> extinct p = true.
Proof.
  unfold extinct, average. intros [H|H]; rewrite H; simpl.
  - reflexivity.
  - apply orb_true_r.
Qed.

(** ... and an iteration returns exactly when it holds. *)
Lemma generation_returns_iff (pop gen : Z) (st : locals) (w : world) :
  length (v_p st) = Z.to_nat pop ->
  fst (generation pop gen st w) = Ok Return <-> extinct (v_p st) = true.
Proof.
  intros Hlen.
  destruct (generation_step pop gen st w Hlen)
    as (f & evs & B & w' & Hrun & _ & _ & _ & _ & _ & Hf).
  rewrite Hrun. simpl. destruct f as [st'|].
  - destruct Hf as (Hext & _). rewrite Hext. split; discriminate.
  - destruct Hf as (Hext & _). rewrite Hext. split; reflexivity.
Qed.

(** C1 fails on the code.  When every creature of the initial population of
    10 draws the power 0, all 10 are alive at generation 0, their average
    is 0, and [simulate 10 51] reports extinction at once. *)
Theorem extinct_despite_survivors :
  let w := start (oracle []) in
  (exists p w1,
      initialize 10 w = (Ok (p, 10), w1) /\
      living p = 10 /\ extinct p = true) /\
  fst (simulate 10 51 w) = Ok tt /\
  out (snd (simulate 10 51 w))
  = [PGeneration 0; PExtinct; PStats 0 10 0 0 0 0 0 0].
Proof.
  intros w. split; [|split].
  - eexists _, _. split; [vm_compute; reflexivity|].
    split; vm_compute; reflexivity.
  - vm_compute. reflexivity.
  - vm_compute. reflexivity.
Qed.

(** The same happens later in a run whenever the powers of the living
    cancel out: two living creatures of powers 3 and -3 count as extinct. *)
Example extinct_when_powers_cancel :
  let p := [Creature 3 Alive 8 0; Creature (-3) Alive 9 0] in
  living p = 2 /\
  fst (generation 2 5 (locals0 p 10) (start (oracle []))) = Ok Return.
Proof. split; vm_compute; reflexivity. Qed.

(** C4 fails on the code.  Ten creatures are created with powers
    0, 0, 0, 0, 4.5, 4.5, 0, 0, 0, 0; in generation 0 the eight weak ones
    die.  In generation 1 the quota of 4 is used up on slots 0 to 3, the
    loop breaks before slot 4, and creatures 4 and 5, alive before and after
    generation 1, keep the age 1. *)
Theorem age_not_incremented_after_break :
  let w := start (oracle [0; 0; 0; 0; 45 # 10; 45 # 10; 0; 0; 0; 0;
                          9 # 10; 9 # 10; 9 # 10; 9 # 10;
                          9 # 10; 9 # 10; 9 # 10; 9 # 10]%Q) in
  exists st1 w1 st2 w2,
    simulate_run 10 (range 1) w = (Ok (Next st1), w1) /\
    simulate_run 10 (range 2) w = (Ok (Next st2), w2) /\
    v_p st1 !! 4%nat = Some (Creature (45 # 10) Alive 4 1) /\
    v_p st2 !! 4%nat = Some (Creature (45 # 10) Alive 4 1) /\
    v_p st1 !! 5%nat = Some (Creature (45 # 10) Alive 5 1) /\
    v_p st2 !! 5%nat = Some (Creature (45 # 10) Alive 5 1).
Proof.
  intros w. eexists _, _, _, _.
  split; [vm_compute; reflexivity|].
  split; [vm_compute; reflexivity|].
  repeat split; vm_compute; reflexivity.
Qed.

(** What the script does with its two inputs: it exits with status 1 when
    one of them is not an integer, when [maxpop < 10] or when [maxgen < 51],
    and calls [simulate] in every other case. *)
Lemma main_spec (maxpop maxgen : option Z) (w : world) :
  match maxpop, maxgen with
  | Some a, Some b =>
      if (a <? 10) || (b <? 51)
      then fst (main maxpop maxgen w) = Raise (SystemExit 1)
      else main maxpop maxgen w = simulate a b w
  | _, _ => fst (main maxpop maxgen w) = Raise (SystemExit 1)
  end.
Proof.
  destruct maxpop as [a|], maxgen as [b|]; try reflexivity.
  unfold main. destruct (a <? 10); [reflexivity|].
  destruct (b <? 51); reflexivity.
Qed.

Lemma main_calls_simulate (a b : Z) (w : world) :
  10 <= a -> 51 <= b -> main (Some a) (Some b) w = simulate a b w.
Proof.
  intros Ha Hb. pose proof (main_spec (Some a) (Some b) w) as H.
  cbv beta iota in H.
  destruct (a <? 10) eqn:Ea; [apply Z.ltb_lt in Ea; lia|].
  destruct (b <? 51) eqn:Eb; [apply Z.ltb_lt in Eb; lia|].
  exact H.
Qed.

(** C6 fails on the code.  A population size of 100001, above the 100000
    the message announces, is not rejected: the script calls [simulate]
    with it and ends normally. *)
Theorem main_accepts_oversized_population :
  (forall w, main (Some 100001) (Some 51) w = simulate 100001 51 w) /\
  (forall d, fst (main (Some 100001) (Some 51) (start d)) = Ok tt).
Proof.
  assert (forall w, main (Some 100001) (Some 51) w = simulate 100001 51 w)
    as Hcall by (intros w; apply main_calls_simulate; lia).
  split; [exact Hcall|].
  intros d. rewrite Hcall.
  destruct (simulate_spec 100001 51 (start d) eq_refl)
    as (f & w1 & evs & w' & _ & Hsim & _).
  rewrite Hsim. destruct f; [|reflexivity].
  replace (51 <=? 0) with false by (symmetry; apply Z.leb_gt; lia).
  reflexivity.
Qed.

(** * Further properties of the functions *)

(** ** kill: how many draws it takes *)

Lemma kill_loop_draws (trials : nat) (w : world) :
  exists b w',
    kill_loop trials w = (Ok b, w') /\
    draws w' = draws w /\ out w' = out w /\ born w' = born w /\
    (pos w <= pos w' <= pos w + trials)%nat /\
    (b = true ->
     (pos w < pos w')%nat /\ (6 # 10 < draws w (pos w' - 1))%Q) /\
    (b = false -> pos w' = (pos w + trials)%nat) /\
    (forall k, (pos w <= k)%nat ->
               (k < pos w' - (if b then 1 else 0))%nat ->
               (draws w k <= 6 # 10)%Q).
Proof.
  revert w. induction trials as [|t IH]; intros w.
  - exists false, w. simpl. repeat split; try lia; discriminate.
  - cbn [kill_loop]. unfold bind, draw.
    destruct (Qltb (6 # 10) (draws w (pos w))) eqn:E.
    + eexists true, _. split; [reflexivity|]. cbn [draws pos out born].
      apply Qltb_lt in E.
      do 3 (split; [reflexivity|]). split; [lia|].
      split; [|split; [discriminate|intros k Hk1 Hk2; lia]].
      intros _. split; [lia|].
      now replace (S (pos w) - 1)%nat with (pos w) by lia.
    + apply Qltb_ge in E.
      destruct (IH {| draws := draws w; pos := S (pos w); out := out w;
                      born := born w |})
        as (b & w' & Hrun & Hd & Ho & Hn & Hp & Ht & Hf & Hk).
      cbn [draws pos out born] in *. exists b, w'. split; [exact Hrun|].
      do 3 (split; [assumption|]). split; [lia|].
      split; [|split].
      * intros Hb. destruct (Ht Hb) as (H1 & H2). split; [lia | exact H2].
      * intros Hb. rewrite (Hf Hb). lia.
      * intros k Hk1 Hk2.
        destruct (Nat.eq_dec k (pos w)) as [->|Hne]; [exact E|].
        apply Hk; lia.
Qed.

(** X2.  For a positive deficit, [kill] reads the oracle and nothing else.
    It takes at most [int(f)^2] draws and stops at the first one above 0.6:
    when it returns [True] the last draw taken is above 0.6 and every
    earlier one is not; when it returns [False] it has taken all
    [int(f)^2] draws and none is above 0.6. *)
Theorem kill_stops_at_first_success (f : Q) (w : world) :
  (0 < f)%Q ->
  exists b w',
    kill f w = (Ok (Some b), w') /\
    draws w' = draws w /\ out w' = out w /\ born w' = born w /\
    (pos w <= pos w' <= pos w + Z.to_nat (int f ^ 2))%nat /\
    (b = true ->
     (pos w < pos w')%nat /\ (6 # 10 < draws w (pos w' - 1))%Q) /\
    (b = false -> pos w' = (pos w + Z.to_nat (int f ^ 2))%nat) /\
    (forall k, (pos w <= k)%nat ->
               (k < pos w' - (if b then 1 else 0))%nat ->
               (draws w k <= 6 # 10)%Q).
Proof.
  intros Hf. unfold kill. apply Qltb_lt in Hf. rewrite Hf.
  destruct (kill_loop_draws (Z.to_nat (int f ^ 2)) w)
    as (b & w' & Hrun & H).
  exists b, w'. unfold bind. rewrite Hrun. split; [reflexivity | exact H].
Qed.

Lemma kill_stops_at_first_success_witness :
  exists b w',
    kill (5 # 2) (start (oracle [1 # 10; 9 # 10; 9 # 10])) = (Ok (Some b), w') /\
    (pos w' <= 4)%nat.
Proof.
  destruct (kill_stops_at_first_success (5 # 2)
              (start (oracle [1 # 10; 9 # 10; 9 # 10])))
    as (b & w' & Hrun & _ & _ & _ & Hp & _).
  - reflexivity.
  - exists b, w'. split; [exact Hrun|].
    change (Z.to_nat (int (5 # 2) ^ 2)) with 4%nat in Hp. simpl in Hp. lia.
Defined.

(** ** initialize: the first population *)

(** X3.  [initialize pop] takes exactly [pop] draws (none when [pop <= 0]);
    slot [i] of the list it returns holds the creature with the [i]-th of
    these draws as power, Alive, id [i], age 0; the next id is the number of
    creatures.  It prints nothing. *)
Theorem initialize_population (pop : Z) (w : world) :
  exists p w',
    initialize pop w = (Ok (p, Z.max 0 pop), w') /\
    length p = Z.to_nat pop /\
    (forall i : nat,
        (i < Z.to_nat pop)%nat ->
        p !! i = Some {| c_s := draws w (pos w + i); c_l := Alive;
                         c_id := Z.of_nat i; c_a := 0 |}) /\
    draws w' = draws w /\ pos w' = (pos w + Z.to_nat pop)%nat /\
    out w' = out w /\ born w' = born w ++ p.
Proof.
  unfold initialize, range.
  destruct (initialize_loop_spec (seq 0 (Z.to_nat pop)) [] 0 w)
    as (B & w' & Hrun & Hlen & Hids & HB & Hs & Hb & Ho & Hd & Hp).
  rewrite length_seq in *. simpl in Hrun.
  exists B, w'. split.
  { rewrite Hrun. do 2 f_equal. f_equal. lia. }
  split; [exact Hlen|]. split; [|auto].
  intros i Hi.
  destruct (B !! i) as [x|] eqn:Hx.
  - specialize (Hs i Hi). rewrite Hx in Hs. simpl in Hs. inversion Hs as [Hsx].
    rewrite Forall_forall in HB.
    destruct (HB x (list_elem_of_lookup_2 _ _ _ Hx)) as (Hl & Ha).
    assert (c_id x = Z.of_nat i) as Hid.
    { assert ((map c_id B) !! i = Some (c_id x)) as Hm
        by (rewrite list_lookup_fmap, Hx; reflexivity).
      rewrite Hids in Hm.
      assert (forall n k j, (j < k)%nat ->
                ids_from n k !! j = Some (n + Z.of_nat j)) as Hlk.
      { intros n k. revert n. induction k as [|k IHk]; intros n j Hj; [lia|].
        destruct j as [|j]; simpl; [f_equal; lia|].
        rewrite IHk by lia. f_equal. lia. }
      rewrite Hlk in Hm by exact Hi. inversion Hm. lia. }
    destruct x as [s l id a]. simpl in *. subst. reflexivity.
  - apply lookup_ge_None in Hx. lia.
Qed.

Lemma initialize_population_witness :
  exists p w',
    initialize 3 (start (oracle [1%Q; 2%Q; 4%Q])) = (Ok (p, 3), w') /\
    p !! 1%nat = Some (Creature 2 Alive 1 0).
Proof.
  destruct (initialize_population 3 (start (oracle [1%Q; 2%Q; 4%Q])))
    as (p & w' & Hrun & _ & Hslot & _).
  exists p, w'. split; [exact Hrun|].
  apply (Hslot 1%nat). simpl. lia.
Defined.

(** ** parent_power: the count and the bounds *)

Lemma parent_power_loop_app (idx1 idx2 : list nat) (p : list creature) :
  forall (sum : Q) (count : Z) (w : world),
    parent_power_loop (idx1 ++ idx2) p sum count w
    = (r <- parent_power_loop idx1 p sum count ;;
       parent_power_loop idx2 p (fst r) (snd r)) w.
Proof.
  induction idx1 as [|i idx1 IH]; intros sum count w.
  - reflexivity.
  - simpl app. cbn [parent_power_loop]. unfold bind at 1 3, getitem.
    destruct (p !! i) as [x|]; [|reflexivity]. unfold ret.
    destruct (life_eqb (c_l x) Alive); apply IH.
Qed.

Lemma pressure_loop_app (idx1 idx2 : list nat) (env : Q) :
  forall (p : list creature) (w : world),
    pressure_loop (idx1 ++ idx2) env p w
    = match pressure_loop idx1 env p w with
      | (Ok p', w') => pressure_loop idx2 env p' w'
      | (Raise e, w') => (Raise e, w')
      end.
Proof.
  induction idx1 as [|i idx1 IH]; intros p w.
  - reflexivity.
  - simpl app. cbn [pressure_loop]. unfold bind, getitem.
    destruct (p !! i) as [x|]; [|reflexivity]. unfold ret.
    destruct (kill (env - c_s x) w) as [[k|e] w1]; [|reflexivity].
    destruct (truthy k); apply IH.
Qed.

(** X5.  The loops index the list up to [pop]: given a [pop] above the
    length of the list, [parent_power] raises [IndexError] having changed
    nothing, and [pressure] raises [IndexError] too. *)
Theorem index_error_beyond_length (p : list creature) (gen pop : Z) (w : world) :
  (length p < Z.to_nat pop)%nat ->
  parent_power p pop w = (Raise IndexError, w) /\
  fst (pressure p gen pop w) = Raise IndexError.
Proof.
  intros Hlen.
  assert (range pop
          = seq 0 (length p)
            ++ length p :: seq (S (length p)) (Z.to_nat pop - S (length p)))
    as Hrange.
  { unfold range.
    replace (Z.to_nat pop)
      with (length p + S (Z.to_nat pop - S (length p)))%nat at 1 by lia.
    now rewrite seq_app. }
  split.
  - unfold parent_power. rewrite Hrange. unfold bind at 1.
    rewrite parent_power_loop_app. unfold bind at 1.
    pose proof (parent_power_loop_tally [] p [] 0%Q 0 w) as H.
    simpl in H. rewrite app_nil_r in H. rewrite H.
    cbn [parent_power_loop]. unfold bind, getitem.
    rewrite lookup_ge_None_2 by lia. reflexivity.
  - unfold pressure. rewrite Hrange. unfold bind at 1.
    rewrite pressure_loop_app.
    pose proof (pressure_loop_cull (pressure_for gen) [] p [] w) as H.
    simpl in H. rewrite app_nil_r in H. rewrite H. unfold bind at 1.
    destruct (cull_spec (pressure_for gen) p w) as (p' & w' & Hc & Hf & _).
    rewrite Hc. unfold ret at 1. rewrite app_nil_r.
    cbn [pressure_loop]. unfold bind, getitem.
    rewrite lookup_ge_None_2
      by (rewrite <- (Forall2_length _ _ _ Hf); lia).
    reflexivity.
Qed.

Lemma index_error_beyond_length_witness :
  parent_power [Creature 3 Alive 0 0] 2 (start (oracle []))
  = (Raise IndexError, start (oracle [])).
Proof.
  apply (proj1 (index_error_beyond_length [Creature 3 Alive 0 0] 0 2
                  (start (oracle [])) ltac:(simpl; lia))).
Defined.

(** ** pressure: who is safe *)



(** ** The respawn loop: the living after the pass *)



(** ** print_living: what is printed, what is returned *)

Lemma print_living_loop_roster (p : list creature) (pop : Z) :
  forall (e : extremes) (w : world),
    print_living_loop p pop e w
    = (Ok (scan p e),
       {| draws := draws w; pos := pos w;
          out := out w ++ (if pop <=? 20 then roster p else []);
          born := born w |}).
Proof.
  induction p as [|i p IH]; intros e w.
  - simpl. destruct (pop <=? 20); rewrite app_nil_r; now destruct w.
  - cbn [print_living_loop scan roster]. destruct (life_eqb (c_l i) Alive).
    + unfold bind. destruct (pop <=? 20) eqn:E.
      * unfold print. rewrite IH. cbn [draws pos out born].
        now rewrite <- app_assoc.
      * unfold ret. now rewrite IH.
    + apply IH.
Qed.

(** X9.  [print_living] takes no draw and creates nothing.  For a
    population size of at most 20 it prints one line per living creature,
    in slot order, and nothing else; above 20 it prints the summary of the
    weakest and strongest, followed by the oldest only when the age found
    exceeds 1. *)
Theorem print_living_output (p : list creature) (pop : Z) (w : world) :
  let e := scan p extremes0 in
  print_living p pop w
  = (Ok (strong e, sid e, old e, oid e),
     {| draws := draws w; pos := pos w;
        out := out w ++
               (if pop <=? 20 then roster p
                else PExtremes (wid e) (weak e) (sid e) (strong e)
                     :: (if old e >? 1 then [POldest (oid e) (old e)] else []));
        born := born w |}).
Proof.
  intros e. unfold print_living. unfold bind at 1.
  rewrite print_living_loop_roster. fold e.
  destruct (pop <=? 20) eqn:E.
  - apply Z.leb_le in E.
    replace (pop >? 20) with false
      by (rewrite Z.gtb_ltb; symmetry; apply Z.ltb_ge; lia).
    reflexivity.
  - apply Z.leb_gt in E.
    replace (pop >? 20) with true
      by (rewrite Z.gtb_ltb; symmetry; apply Z.ltb_lt; lia).
    unfold bind, print, ret. cbn [draws pos out born]. rewrite app_nil_r.
    destruct (old e >? 1); cbn [draws pos out born].
    + now rewrite <- app_assoc.
    + reflexivity.
Qed.

(** X10.  What [print_living] returns, for every population: a power that
    is at least 0 and at least every living power, and an age that is at
    least 1 and at least every living age.  The power is either 0 with id
    0, or positive and then the greatest living power with the id of a
    living creature that has it; the age is either 1 with id 0, or above 1
    and then the greatest living age with the id of a living creature that
    has it. *)
Theorem print_living_sentinels (p : list creature) (pop : Z) (w : world) :
  exists s i a j,
    fst (print_living p pop w) = Ok (s, i, a, j) /\
    (0 <= s)%Q /\ 1 <= a /\
    (forall y, y ∈ p -> c_l y = Alive -> (c_s y <= s)%Q /\ c_a y <= a) /\
    (s = 0%Q /\ i = 0 \/ (0 < s)%Q /\ strongest p s i) /\
    (a = 1 /\ j = 0 \/ 1 < a /\ eldest p a j).
Proof.
  destruct (print_living_spec p pop w) as (evs & Hrun & _).
  rewrite Hrun. cbn [fst].
  destruct (scan_strong p extremes0) as (S1 & S2 & S3).
  destruct (scan_old p extremes0) as (O1 & O2 & O3).
  cbn [strong sid old oid extremes0] in *.
  eexists _, _, _, _. split; [reflexivity|].
  split; [exact S1|]. split; [exact O1|].
  split; [intros y Hy Ha; split; auto|].
  split.
  - destruct S3 as [S3 | (Hlt & Hx)]; [now left|].
    right. split; [exact Hlt|]. split; [exact S2 | exact Hx].
  - destruct O3 as [O3 | (Hlt & Hx)]; [now left|].
    right. split; [exact Hlt|]. split; [exact O2 | exact Hx].
Qed.

Lemma print_living_sentinels_witness :
  exists s i a j,
    fst (print_living [Creature 3 Alive 7 2; Creature 1 Alive 8 0] 30
                      (start (oracle [])))
    = Ok (s, i, a, j) /\
    (1 <= s)%Q /\ 0 <= a.
Proof.
  destruct (print_living_sentinels [Creature 3 Alive 7 2; Creature 1 Alive 8 0]
              30 (start (oracle [])))
    as (s & i & a & j & Hrun & _ & _ & Hall & _).
  exists s, i, a, j. split; [exact Hrun|].
  destruct (Hall (Creature 1 Alive 8 0)) as (Hs & Ha).
  - right. left.
  - reflexivity.
  - split; [exact Hs | exact Ha].
Defined.

(** ** One generation, in full *)

(** An iteration that goes on: the state it leaves and the lines it
    prints. *)
Lemma generation_next (pop gen : Z) (st : locals) (w : world) :
  length (v_p st) = Z.to_nat pop ->
  extinct (v_p st) = false ->
  let p := v_p st in
  let e := scan p extremes0 in
  let env := pressure_for gen in
  let fit := Qltb (v_fittest st) (strong e - env) in
  let aged := v_oldest st <? old e in
  exists B p' w',
    generation pop gen st w
    = (Ok (Next {| v_p := p';
                   v_n := v_n st + Z.of_nat (length B);
                   v_fittest := if fit then (strong e - env)%Q
                                else v_fittest st;
                   v_fitid := if fit then sid e else v_fitid st;
                   v_old_env := if fit then env else v_old_env st;
                   v_oldest := if aged then old e else v_oldest st;
                   v_oldid := if aged then oid e else v_oldid st;
                   v_oldgen := if aged then gen else v_oldgen st |}), w') /\
    length p' = length p /\
    born w' = born w ++ B /\
    draws w' = draws w /\
    exists evs1,
      Forall census_event evs1 /\
      out w' = out w ++ PGeneration gen :: PSurvived (living p) :: evs1 ++
               [PChildren (Z.of_nat (length B)) (mutation_spread gen (living p));
                PAverage (average p) env].
Proof.
  intros Hlen Eext p e env fit aged. unfold generation.
  unfold bind at 1, print at 1.
  erewrite bind_ok by (apply parent_power_spec; exact Hlen).
  cbv beta iota.
  change (Qeq_bool (average (v_p st)) 0 || (living (v_p st) =? 1))
    with (extinct (v_p st)).
  rewrite Eext.
  pose proof (not_extinct_living _ Eext) as Hliv.
  fold p in Hliv, Hlen |- *. set (count := living p) in *.
  assert (0 <= count * 2) as Hquota by lia.
  unfold bind at 1, print at 1. cbn [draws pos out born].
  match goal with
  | |- context [bind (print_living p pop) _ ?w0] =>
      destruct (print_living_spec p pop w0) as (evs1 & Hpl & Hev1 & _);
      rewrite (bind_ok _ _ _ _ _ Hpl)
  end.
  fold e. cbv beta iota zeta. cbn [draws pos out born].
  erewrite bind_ok
    by (unfold truediv; rewrite inject_Z_nonzero by lia; reflexivity).
  match goal with
  | |- context [bind (respawn_loop _ ?avg ?mut p ?n _) _ ?w2] =>
      destruct (respawn_list_run avg p n (count * 2) w2 Hquota)
        as (q & n' & new' & B & w3 & Hrun & Hn & Hnew & Hq & Hd3 & Hp3 & Ho3
            & Hb3 & Hids & _);
      rewrite (bind_ok _ _ w2 w3 (q, n', new'))
        by (rewrite respawn_loop_full by exact Hlen; exact Hrun)
  end.
  cbv beta iota. unfold bind at 1, print at 1.
  match goal with
  | |- context [bind (pressure q gen pop) _ ?w3'] =>
      destruct (pressure_spec q gen pop w3' ltac:(lia))
        as (p' & w4 & Hpr & Hcull & Hd4 & Ho4 & Hb4 & _);
      rewrite (bind_ok _ _ _ _ _ Hpr)
  end.
  cbv beta iota. unfold bind, print, ret.
  cbn [draws pos out born] in *.
  pose proof (dead_nonneg p) as Hdead.
  assert (Z.of_nat (length B) = Z.min (count * 2) (dead p)) as HlenB.
  { apply (f_equal length) in Hids.
    rewrite length_map, ids_from_length in Hids. lia. }
  replace n' with (v_n st + Z.of_nat (length B)) by lia.
  exists B, p'. eexists. split; [reflexivity|].
  cbn [draws pos out born].
  split; [rewrite <- (Forall2_length _ _ _ Hcull); exact Hq|].
  split; [congruence|]. split; [congruence|].
  exists evs1. split; [exact Hev1|].
  rewrite Ho4, Ho3. rewrite <- !app_assoc. simpl.
  replace (count * 2 - new') with (Z.of_nat (length B)) by lia.
  reflexivity.
Qed.

(** An iteration that ends the run: the report it prints. *)
Lemma generation_extinct (pop gen : Z) (st : locals) (w : world) :
  length (v_p st) = Z.to_nat pop ->
  extinct (v_p st) = true ->
  generation pop gen st w
  = (Ok Return,
     {| draws := draws w; pos := pos w;
        out := out w ++
               [PGeneration gen; PExtinct;
                PStats gen (v_n st) (v_fittest st) (v_fitid st) (v_old_env st)
                       (v_oldest st) (v_oldid st) (v_oldgen st)];
        born := born w |}).
Proof.
  intros Hlen Eext. unfold generation.
  unfold bind at 1, print at 1.
  erewrite bind_ok by (apply parent_power_spec; exact Hlen).
  cbv beta iota.
  change (Qeq_bool (average (v_p st)) 0 || (living (v_p st) =? 1))
    with (extinct (v_p st)).
  rewrite Eext. unfold print_stats, bind, print, ret.
  cbn [draws pos out born]. now rewrite <- !app_assoc.
Qed.

Lemma generations_of_app (evs1 evs2 : list event) :
  generations_of (evs1 ++ evs2) = generations_of evs1 ++ generations_of evs2.
Proof.
  induction evs1 as [|ev evs1 IH]; [reflexivity|].
  destruct ev; simpl; rewrite IH; reflexivity.
Qed.

Lemma census_no_generation (evs : list event) :
  Forall census_event evs -> generations_of evs = [] /\ Forall body_event evs.
Proof.
  induction 1 as [|ev evs Hev _ (IH1 & IH2)]; [split; constructor|].
  destruct ev; simpl in Hev; try contradiction;
    (split; [exact IH1 | constructor; [exact I | exact IH2]]).
Qed.

(** The loop of [simulate] over the generations [a], [a+1], ...: either it
    runs through them all, or it returns at one of them after printing the
    extinction report.  [st1] is the state the run ends with and [k] the
    number of generations announced. *)
Lemma simulate_loop_report (pop : Z) (m : nat) :
  forall (a : nat) (st : locals) (w : world),
    length (v_p st) = Z.to_nat pop ->
    exists f evs B w' k st1,
      simulate_loop pop (seq a m) st w = (Ok f, w') /\
      born w' = born w ++ B /\
      Forall body_event evs /\
      generations_of evs = map Z.of_nat (seq a k) /\
      v_n st1 = v_n st + Z.of_nat (length B) /\
      match f with
      | Next st' => st' = st1 /\ k = m /\ out w' = out w ++ evs
      | Return =>
          (0 < k <= m)%nat /\
          out w' = out w ++ evs ++
                   [PExtinct;
                    PStats (Z.of_nat (a + k - 1)) (v_n st1) (v_fittest st1)
                           (v_fitid st1) (v_old_env st1) (v_oldest st1)
                           (v_oldid st1) (v_oldgen st1)]
      end.
Proof.
  induction m as [|m IH]; intros a st w Hlen.
  - exists (Next st), [], [], w, 0%nat, st. simpl.
    rewrite !app_nil_r, Z.add_0_r. repeat split; constructor.
  - rewrite seq_cons. cbn [simulate_loop].
    destruct (extinct (v_p st)) eqn:Eext.
    + rewrite (bind_ok _ _ _ _ _ (generation_extinct pop _ st w Hlen Eext)).
      unfold ret.
      eexists Return, [PGeneration (Z.of_nat a)], [], _, 1%nat, st.
      cbn [born out]. rewrite app_nil_r, Z.add_0_r.
      split; [reflexivity|]. split; [reflexivity|].
      split; [repeat constructor|]. split; [reflexivity|].
      split; [reflexivity|]. split; [lia|].
      replace (a + 1 - 1)%nat with a by lia. reflexivity.
    + destruct (generation_next pop (Z.of_nat a) st w Hlen Eext)
        as (B1 & p' & w1 & Hgen & Hlen' & Hb1 & _ & evs1 & Hev1 & Ho1).
      rewrite (bind_ok _ _ _ _ _ Hgen).
      match type of Hgen with
      | _ = (Ok (Next ?s), _) => set (st' := s) in *
      end.
      destruct (IH (S a) st' w1 ltac:(cbn [v_p st']; congruence))
        as (f & evs2 & B2 & w' & k & st1 & Hrun & Hb2 & Hev2 & Hg2 & Hn2 & Hf).
      destruct (census_no_generation _ Hev1) as (Hg1 & Hbody1).
      exists f,
        (PGeneration (Z.of_nat a) :: PSurvived (living (v_p st)) :: evs1 ++
         [PChildren (Z.of_nat (length B1))
                    (mutation_spread (Z.of_nat a) (living (v_p st)));
          PAverage (average (v_p st)) (pressure_for (Z.of_nat a))] ++ evs2),
        (B1 ++ B2), w', (S k), st1.
      split; [exact Hrun|].
      split; [rewrite Hb2, Hb1, <- app_assoc; reflexivity|].
      split.
      { constructor; [exact I|]. constructor; [exact I|].
        apply Forall_app. split; [exact Hbody1|].
        constructor; [exact I|]. constructor; [exact I | exact Hev2]. }
      split.
      { cbn [generations_of]. rewrite generations_of_app, Hg1.
        cbn [generations_of app]. rewrite Hg2. reflexivity. }
      split.
      { rewrite Hn2. cbn [v_n st']. rewrite length_app. lia. }
      destruct f as [st2|].
      * destruct Hf as (-> & -> & Ho2). split; [reflexivity|].
        split; [reflexivity|].
        rewrite Ho2, Ho1, <- !app_assoc, <- !app_comm_cons, <- !app_assoc.
        reflexivity.
      * destruct Hf as (Hk & Ho2). split; [lia|].
        rewrite Ho2, Ho1, <- !app_assoc, <- !app_comm_cons, <- !app_assoc.
        replace (a + S k - 1)%nat with (S a + k - 1)%nat by lia.
        reflexivity.
Qed.

(** ** Whole runs: how simulate ends *)

Lemma simulate_report_full (pop generations : Z) (d : nat -> Q) :
  1 <= generations ->
  exists w' k evs last st1,
    simulate pop generations (start d) = (Ok tt, w') /\
    out w' = evs ++
             [last;
              PStats (Z.of_nat k) (v_n st1) (v_fittest st1) (v_fitid st1)
                     (v_old_env st1) (v_oldest st1) (v_oldid st1)
                     (v_oldgen st1)] /\
    Forall body_event evs /\
    generations_of evs = map Z.of_nat (seq 0 (S k)) /\
    Z.of_nat k < generations /\
    (last = PExtinct \/ last = PSucceeded /\ Z.of_nat k = generations - 1) /\
    v_n st1 = Z.of_nat (length (born w')).
Proof.
  intros Hgen. unfold simulate, simulate_run.
  destruct (initialize_spec pop (start d))
    as (p0 & w1 & Hinit & Hlen0 & _ & _ & _ & Hb1 & Ho1 & _).
  simpl in Hb1, Ho1.
  unfold bind at 1 2. rewrite Hinit. unfold range.
  destruct (simulate_loop_report pop (Z.to_nat generations) 0
              (locals0 p0 (Z.of_nat (Z.to_nat pop))) w1 Hlen0)
    as (f & evs & B & w2 & k & st1 & Hrun & Hb2 & Hev & Hg & Hn & Hf).
  rewrite Hrun. cbn [v_n locals0] in Hn.
  assert (v_n st1 = Z.of_nat (length (born w2))) as Hcount.
  { rewrite Hn, Hb2, Hb1, length_app, Hlen0. lia. }
  destruct f as [st'|].
  - destruct Hf as (-> & -> & Ho2).
    unfold bind, print, print_stats.
    replace (generations <=? 0) with false by (symmetry; apply Z.leb_gt; lia).
    cbn [draws pos out born].
    eexists _, (Z.to_nat generations - 1)%nat, evs, PSucceeded, st1.
    split; [reflexivity|]. cbn [out born].
    split.
    { rewrite Ho2, Ho1, <- app_assoc. cbn [app].
      replace (Z.of_nat (Z.to_nat generations - 1)) with (generations - 1)
        by lia.
      reflexivity. }
    split; [exact Hev|].
    split.
    { rewrite Hg. do 2 f_equal. lia. }
    split; [lia|]. split; [right; split; [reflexivity | lia]|].
    exact Hcount.
  - destruct Hf as (Hk & Ho2). unfold ret.
    exists w2, (k - 1)%nat, evs, PExtinct, st1.
    split; [reflexivity|].
    split.
    { rewrite Ho2, Ho1. cbn [app]. reflexivity. }
    split; [exact Hev|].
    split.
    { rewrite Hg. do 2 f_equal. lia. }
    split; [lia|]. split; [now left | exact Hcount].
Qed.

(** X11.  Given at least one generation, [simulate] returns normally.  It
    announces the generations 0, 1, ..., k in order, with [k] below
    [generations], and ends with exactly one closing report: either the
    extinction line or, only after the last generation [generations - 1],
    the success line, followed by the statistics for generation [k].
    Nothing before these two lines is a report of the end. *)
Theorem simulate_report (pop generations : Z) (d : nat -> Q) :
  1 <= generations ->
  exists k evs last n ft fi oe o oi og,
    fst (simulate pop generations (start d)) = Ok tt /\
    out (snd (simulate pop generations (start d)))
    = evs ++ [last; PStats (Z.of_nat k) n ft fi oe o oi og] /\
    Forall body_event evs /\
    generations_of evs = map Z.of_nat (seq 0 (S k)) /\
    Z.of_nat k < generations /\
    (last = PExtinct \/ last = PSucceeded /\ Z.of_nat k = generations - 1).
Proof.
  intros Hgen.
  destruct (simulate_report_full pop generations d Hgen)
    as (w' & k & evs & last & st1 & Hsim & Ho & Hev & Hg & Hk & Hlast & _).
  rewrite Hsim. cbn [fst snd].
  exists k, evs, last. eexists _, _, _, _, _, _, _.
  split; [reflexivity|]. split; [exact Ho|]. auto.
Qed.

Lemma simulate_report_witness :
  fst (simulate 10 51 (start (oracle []))) = Ok tt.
Proof.
  destruct (simulate_report 10 51 (oracle []) ltac:(lia))
    as (k & evs & last & n & ft & fi & oe & o & oi & og & Hret & _).
  exact Hret.
Defined.

(** X12.  The count [n] that [simulate] hands to [print_stats] at the end
    of a run is the number of creatures created during the run. *)
Theorem simulate_stats_count (pop generations : Z) (d : nat -> Q) :
  1 <= generations ->
  exists evs gen n ft fi oe o oi og,
    out (snd (simulate pop generations (start d)))
    = evs ++ [PStats gen n ft fi oe o oi og] /\
    n = Z.of_nat (length (born (snd (simulate pop generations (start d))))).
Proof.
  intros Hgen.
  destruct (simulate_report_full pop generations d Hgen)
    as (w' & k & evs & last & st1 & Hsim & Ho & _ & _ & _ & _ & Hn).
  rewrite Hsim. cbn [snd].
  exists (evs ++ [last]). eexists _, _, _, _, _, _, _, _.
  split; [|exact Hn].
  rewrite Ho, <- app_assoc. reflexivity.
Qed.

Lemma simulate_stats_count_witness :
  exists evs gen n ft fi oe o oi og,
    out (snd (simulate 10 51 (start (oracle []))))
    = evs ++ [PStats gen n ft fi oe o oi og] /\
    n = Z.of_nat (length (born (snd (simulate 10 51 (start (oracle [])))))).
Proof.
  apply (simulate_stats_count 10 51 (oracle [])). lia.
Defined.

(** X13.  Given no generation to run ([generations <= 0]), [simulate]
    creates the initial population, prints the success line and then stops
    on the loop variable [gen], which was never bound: no statistics are
    printed. *)
Theorem simulate_without_generations (pop generations : Z) (d : nat -> Q) :
  generations <= 0 ->
  exists w',
    simulate pop generations (start d) = (Raise UnboundLocalError, w') /\
    out w' = [PSucceeded] /\
    length (born w') = Z.to_nat pop.
Proof.
  intros Hgen. unfold simulate, simulate_run, range.
  replace (Z.to_nat generations) with 0%nat by lia.
  destruct (initialize_spec pop (start d))
    as (p0 & w1 & Hinit & Hlen0 & _ & _ & _ & Hb1 & Ho1 & _).
  simpl in Hb1, Ho1.
  unfold bind at 1 2. rewrite Hinit. cbn [seq simulate_loop]. unfold ret.
  unfold bind, print, raise.
  replace (generations <=? 0) with true by (symmetry; apply Z.leb_le; lia).
  eexists. split; [reflexivity|]. cbn [out born].
  rewrite Ho1, Hb1. split; [reflexivity | exact Hlen0].
Qed.

Lemma simulate_without_generations_witness :
  exists w',
    simulate 10 0 (start (oracle [])) = (Raise UnboundLocalError, w') /\
    out w' = [PSucceeded].
Proof.
  destruct (simulate_without_generations 10 0 (oracle []) ltac:(lia))
    as (w' & Hsim & Ho & _).
  exists w'. split; [exact Hsim | exact Ho].
Defined.

Lemma living_small (p : list creature) :
  (length p <= 1)%nat -> Forall (fun b => c_l b = Alive /\ c_a b = 0) p ->
  living p = 0 \/ living p = 1.
Proof.
  destruct p as [|x [|y p]]; simpl; intros Hlen Hall; [now left | | lia].
  apply Forall_cons in Hall as ((Hx & _) & _). rewrite Hx. now right.
Qed.

(** X14.  A population of fewer than two creatures ([pop <= 1]) cannot
    breed: whatever the draws, [simulate] reports extinction at generation
    0, with the number of creatures created (0 or 1) and the initial
    records, and returns. *)
Theorem tiny_population_extinct (pop generations : Z) (d : nat -> Q) :
  pop <= 1 -> 1 <= generations ->
  exists w',
    simulate pop generations (start d) = (Ok tt, w') /\
    out w' = [PGeneration 0; PExtinct;
              PStats 0 (Z.max 0 pop) 0 0 0 0 0 0].
Proof.
  intros Hpop Hgen. unfold simulate, simulate_run, range.
  replace (Z.to_nat generations)
    with (S (Z.to_nat generations - 1)) by lia.
  destruct (initialize_spec pop (start d))
    as (p0 & w1 & Hinit & Hlen0 & _ & Halive & _ & _ & Ho1 & _).
  simpl in Ho1.
  unfold bind at 1 2. rewrite Hinit. rewrite seq_cons. cbn [simulate_loop].
  assert (extinct p0 = true) as Hext.
  { apply extinct_few, living_small; [lia | exact Halive]. }
  rewrite (bind_ok _ _ _ _ _
             (generation_extinct pop (Z.of_nat 0)
                (locals0 p0 (Z.of_nat (Z.to_nat pop))) w1 Hlen0 Hext)).
  unfold ret. eexists. split; [reflexivity|].
  cbn [out locals0 v_n v_fittest v_fitid v_old_env v_oldest v_oldid v_oldgen].
  rewrite Ho1. cbn [app]. simpl Z.of_nat at 1 2.
  replace (Z.of_nat (Z.to_nat pop)) with (Z.max 0 pop) by lia.
  reflexivity.
Qed.

Lemma tiny_population_extinct_witness :
  exists w',
    simulate 1 51 (start (oracle [3%Q])) = (Ok tt, w') /\
    out w' = [PGeneration 0; PExtinct; PStats 0 1 0 0 0 0 0 0].
Proof.
  apply (tiny_population_extinct 1 51 (oracle [3%Q])); lia.
Defined.

(** ** The records kept across generations *)

Lemma simulate_loop_records (pop : Z) (gens : list nat) :
  forall (st : locals) (w : world),
    length (v_p st) = Z.to_nat pop ->
    exists f w',
      simulate_loop pop gens st w = (Ok f, w') /\
      match f with
      | Return => True
      | Next st' =>
          length (v_p st') = length (v_p st) /\
          (v_fittest st <= v_fittest st')%Q /\
          v_oldest st <= v_oldest st' /\
          (v_oldest st' = v_oldest st ->
           v_oldid st' = v_oldid st /\ v_oldgen st' = v_oldgen st) /\
          ((v_fittest st' == v_fittest st)%Q ->
           v_fitid st' = v_fitid st /\ v_old_env st' = v_old_env st)
      end.
Proof.
  induction gens as [|gen gens IH]; intros st w Hlen.
  - exists (Next st), w. split; [reflexivity|].
    split; [reflexivity|]. split; [apply Qle_refl|]. split; [lia|].
    split; auto.
  - cbn [simulate_loop].
    destruct (extinct (v_p st)) eqn:Eext.
    + rewrite (bind_ok _ _ _ _ _
                 (generation_extinct pop _ st w Hlen Eext)).
      eexists Return, _. split; [reflexivity | exact I].
    + destruct (generation_next pop (Z.of_nat gen) st w Hlen Eext)
        as (B1 & p' & w1 & Hgen & Hlen' & _).
      rewrite (bind_ok _ _ _ _ _ Hgen).
      match type of Hgen with
      | _ = (Ok (Next ?s), _) => set (st1 := s) in *
      end.
      destruct (IH st1 w1 ltac:(cbn [v_p st1]; congruence))
        as (f & w' & Hrun & Hf).
      exists f, w'. split; [exact Hrun|].
      destruct f as [st'|]; [|exact I].
      destruct Hf as (Hl & Hfit & Hold & Hoid & Hfid).
      set (e := scan (v_p st) extremes0) in *.
      set (env := pressure_for (Z.of_nat gen)) in *.
      assert ((v_fittest st <= v_fittest st1)%Q /\
              ((v_fittest st1 == v_fittest st)%Q ->
               v_fitid st1 = v_fitid st /\ v_old_env st1 = v_old_env st))
        as (Hfit1 & Hfid1).
      { cbn [v_fittest v_fitid v_old_env st1].
        destruct (Qltb (v_fittest st) (strong e - env)) eqn:E.
        - apply Qltb_lt in E. split; [apply Qlt_le_weak, E|].
          intros Heq. rewrite Heq in E. exfalso. exact (Qlt_irrefl _ E).
        - split; [apply Qle_refl | auto]. }
      assert (v_oldest st <= v_oldest st1 /\
              (v_oldest st1 = v_oldest st ->
               v_oldid st1 = v_oldid st /\ v_oldgen st1 = v_oldgen st))
        as (Hold1 & Hoid1).
      { cbn [v_oldest v_oldid v_oldgen st1].
        destruct (v_oldest st <? old e) eqn:E.
        - apply Z.ltb_lt in E. split; [lia|]. intros Heq. lia.
        - split; [lia | auto]. }
      split; [cbn [v_p st1] in Hl; congruence|].
      split; [eapply Qle_trans; eassumption|].
      split; [lia|].
      split.
      * intros Heq.
        assert (v_oldest st1 = v_oldest st) as H1 by lia.
        assert (v_oldest st' = v_oldest st1) as H2 by lia.
        destruct (Hoid H2) as (-> & ->). exact (Hoid1 H1).
      * intros Heq.
        assert (v_fittest st1 == v_fittest st)%Q as H1.
        { apply Qle_antisym; [|exact Hfit1].
          rewrite <- Heq. exact Hfit. }
        assert (v_fittest st' == v_fittest st1)%Q as H2.
        { rewrite Heq, H1. reflexivity. }
        destruct (Hfid H2) as (-> & ->). exact (Hfid1 H1).
Qed.

(** X15.  Over any number of generations the records kept by [simulate]
    never go down: the fittest margin and the oldest age of the state after
    the loop are at least those before.  A record that has not moved has
    kept its holder: the same oldest age comes with the same id and
    generation, the same margin with the same id and pressure. *)
Theorem records_never_decrease (pop : Z) (gens : list nat) (st : locals)
    (w : world) :
  length (v_p st) = Z.to_nat pop ->
  exists f w',
    simulate_loop pop gens st w = (Ok f, w') /\
    match f with
    | Return => True
    | Next st' =>
        (v_fittest st <= v_fittest st')%Q /\
        v_oldest st <= v_oldest st' /\
        (v_oldest st' = v_oldest st ->
         v_oldid st' = v_oldid st /\ v_oldgen st' = v_oldgen st) /\
        ((v_fittest st' == v_fittest st)%Q ->
         v_fitid st' = v_fitid st /\ v_old_env st' = v_old_env st)
    end.
Proof.
  intros Hlen.
  destruct (simulate_loop_records pop gens st w Hlen) as (f & w' & Hrun & Hf).
  exists f, w'. split; [exact Hrun|].
  destruct f; [|exact I]. now destruct Hf as (_ & Hf).
Qed.

Lemma records_never_decrease_witness :
  exists f w',
    simulate_loop 2 [0%nat]
      (locals0 [Creature 5 Alive 0 0; Creature 5 Alive 1 0] 2)
      (start (oracle []))
    = (Ok f, w') /\
    match f with
    | Return => True
    | Next st' => 0 <= v_oldest st'
    end.
Proof.
  destruct (records_never_decrease 2 [0%nat]
              (locals0 [Creature 5 Alive 0 0; Creature 5 Alive 1 0] 2)
              (start (oracle [])))
    as (f & w' & Hrun & Hf).
  - reflexivity.
  - exists f, w'. split; [exact Hrun|].
    destruct f; [|exact I]. now destruct Hf as (_ & Hold & _).
Defined.

(** ** Script main: the rejections *)

(** X16.  A rejected input costs one line and nothing else: the script
    prints the message of the first test that fails (not an integer; then
    [maxpop < 10]; then [maxgen < 51]), exits with status 1, and has taken
    no draw and created no creature.  [maxpop] is tested before
    [maxgen]. *)
Theorem main_rejections (w : world) :
  let says msg :=
    (Raise (SystemExit 1) : res unit,
     {| draws := draws w; pos := pos w; out := out w ++ [PMessage msg];
        born := born w |}) in
  (forall maxgen, main None maxgen w = says "Please insert an integer."%string) /\
  (forall maxpop, main maxpop None w = says "Please insert an integer."%string) /\
  (forall a b,
      a < 10 ->
      main (Some a) (Some b) w
      = says "Please choose a population size between 9 and 100000."%string) /\
  (forall a b,
      10 <= a -> b < 51 ->
      main (Some a) (Some b) w
      = says "Please choose a simulation time greater than 50 (up to roughly 275)."%string).
Proof.
  intros says. split; [|split; [|split]].
  - intros maxgen. reflexivity.
  - intros [a|]; reflexivity.
  - intros a b Ha. unfold main.
    replace (a <? 10) with true by (symmetry; apply Z.ltb_lt; lia).
    reflexivity.
  - intros a b Ha Hb. unfold main.
    replace (a <? 10) with false by (symmetry; apply Z.ltb_ge; lia).
    replace (b <? 51) with true by (symmetry; apply Z.ltb_lt; lia).
    reflexivity.
Qed.

Lemma main_rejections_witness :
  fst (main (Some 9) (Some 20) (start (oracle []))) = Raise (SystemExit 1) /\
  out (snd (main (Some 9) (Some 20) (start (oracle []))))
  = [PMessage "Please choose a population size between 9 and 100000."].
Proof.
  pose proof (proj1 (proj2 (proj2 (main_rejections (start (oracle [])))))
                9 20 ltac:(lia)) as H.
  cbv zeta in H. rewrite H. split; reflexivity.
Defined.

(** ** One generation: births, ageing, census *)











(** ** parent_power and pressure, restated *)

Lemma living_zero_dead (p : list creature) :
  living p = 0 <-> Forall (fun x => c_l x = Dead) p.
Proof.
  induction p as [|x p IH]; simpl.
  - split; [constructor | reflexivity].
  - pose proof (living_nonneg p). split.
    + intros H0. destruct (c_l x) eqn:E; simpl in H0; [lia|].
      constructor; [exact E | apply IH; lia].
    + intros Hall. apply Forall_cons in Hall as (Hx & Hall).
      rewrite Hx. simpl. now apply IH.
Qed.

(** X4.  On a list of [pop] creatures [parent_power] changes nothing and
    returns as count the number of living creatures, between 0 and [pop];
    the count is 0 exactly when every creature is dead, and then the
    average returned is 0. *)
Theorem parent_power_count (p : list creature) (pop : Z) (w : world) :
  length p = Z.to_nat pop ->
  exists avg,
    parent_power p pop w = (Ok (avg, living p), w) /\
    0 <= living p <= Z.of_nat (length p) /\
    (living p = 0 <-> Forall (fun x => c_l x = Dead) p) /\
    (living p = 0 -> avg = 0%Q).
Proof.
  intros Hlen. exists (average p).
  split; [apply parent_power_spec, Hlen|].
  pose proof (living_nonneg p) as Hl. pose proof (dead_nonneg p) as Hd.
  pose proof (living_dead_length p) as Hsum.
  split; [lia|]. split; [apply living_zero_dead|].
  intros Hz. unfold average. now rewrite Hz.
Qed.

Lemma parent_power_count_witness :
  exists avg,
    parent_power [Creature 3 Alive 0 0; Creature 9 Dead 1 0;
                  Creature 2 Alive 2 0] 3 (start (oracle []))
    = (Ok (avg, 2), start (oracle [])).
Proof.
  destruct (parent_power_count
              [Creature 3 Alive 0 0; Creature 9 Dead 1 0; Creature 2 Alive 2 0]
              3 (start (oracle [])))
    as (avg & Hrun & _).
  - reflexivity.
  - exists avg. exact Hrun.
Defined.


